(** * generate_bean.py: the procedural bean character generator

    A shallow embedding of [scripts/generate_bean.py] and the properties
    its specification states about it.

    The script drives a 3D authoring host.  What the script itself computes
    is embedded here: the capsule tessellation ([create_capsule]), the bone
    table ([create_armature]), the output path ([main]) and the sequence of
    selection and export requests it sends to the host.

    Python numbers: [int] is [Z]; [float] is a type [T] with the operations
    the script uses (classes [Arith] and [Trig]).  Counting and indexing
    results hold for every such [T]; results about positions are stated for
    the instance [T := R], that is for exact real arithmetic. *)

From Stdlib Require Import Ascii String.
From Stdlib Require Import ZArith List Lia Bool.
From Stdlib Require Import Reals Lra.
Import ListNotations.

Set Implicit Arguments.
Generalizable All Variables.

(* ================================================================== *)
(** * Part I: definitions                                               *)
(* ================================================================== *)

(** ** Python exceptions and the error monad *)

Inductive PyError : Type :=
| ZeroDivisionError
| IndexError.

Inductive result (A : Type) : Type :=
| Ok (a : A)
| Raise (e : PyError).

Arguments Ok {A} a.
Arguments Raise {A} e.

Definition bind {A B : Type} (m : result A) (k : A -> result B) : result B :=
  match m with
  | Ok a => k a
  | Raise e => Raise e
  end.

Notation "x <- m ;; k" := (bind m (fun x => k))
  (at level 61, m at next level, right associativity).
Notation "' pat <- m ;; k" := (bind m (fun x => match x with pat => k end))
  (at level 61, pat pattern, m at next level, right associativity).

(** [for x in xs: st = body(x, st)], stopping at the first exception. *)
Fixpoint for_each {A St : Type} (xs : list A) (body : A -> St -> result St)
         (st : St) : result St :=
  match xs with
  | [] => Ok st
  | x :: xs' => st' <- body x st ;; for_each xs' body st'
  end.

(** ** Python built-ins used by the script *)

(** [range(n)] *)
Definition range (n : Z) : list Z :=
  map Z.of_nat (seq 0 (Z.to_nat n)).

(** [range(a, b)] *)
Definition range_from (a b : Z) : list Z :=
  map (fun k => (a + Z.of_nat k)%Z) (seq 0 (Z.to_nat (b - a))).

(** [range(a, b, -1)] *)
Definition range_down (a b : Z) : list Z :=
  map (fun k => (a - Z.of_nat k)%Z) (seq 0 (Z.to_nat (a - b))).

(** [len(l)] *)
Definition len {A : Type} (l : list A) : Z := Z.of_nat (length l).

(** [l[i]]: negative indices count from the end, anything else out of
    range raises [IndexError]. *)
Definition py_index {A : Type} (l : list A) (i : Z) : result A :=
  let k := if (i <? 0)%Z then (len l + i)%Z else i in
  if (k <? 0)%Z then Raise IndexError
  else match nth_error l (Z.to_nat k) with
       | Some a => Ok a
       | None => Raise IndexError
       end.

(** [a % b] on integers: the result has the sign of [b]. *)
Definition py_mod (a b : Z) : result Z :=
  if (b =? 0)%Z then Raise ZeroDivisionError else Ok (a mod b)%Z.

(** ** Floating-point numbers as an interface *)

Class Arith (T : Type) : Type := {
  of_Z : Z -> T;
  add : T -> T -> T;
  sub : T -> T -> T;
  mul : T -> T -> T;
  div : T -> T -> T;
  neg : T -> T
}.

Class Trig (T : Type) `{Arith T} : Type := {
  t_cos : T -> T;
  t_sin : T -> T;
  t_pi : T
}.

Arguments Trig T {_}.

Declare Scope float_scope.
Delimit Scope float_scope with flt.
Infix "+" := add : float_scope.
Infix "-" := sub : float_scope.
Infix "*" := mul : float_scope.
Infix "/" := div : float_scope.
Notation "- x" := (neg x) : float_scope.

(** A 3D position, [(x, y, z)]. *)
Definition vec3 (T : Type) : Type := (T * T * T)%type.

Section Numbers.
Context {T : Type} `{Arith T}.

(** A decimal literal [n / d], such as [0.70 = 70 / 100]. *)
Definition lit (n d : Z) : T := (of_Z n / of_Z d)%flt.

(** [a / b] with both operands [int]: true division. *)
Definition py_truediv (a b : Z) : result T :=
  if (b =? 0)%Z then Raise ZeroDivisionError else Ok (of_Z a / of_Z b)%flt.

(** [x / b] with [x] a float and [b] an [int]. *)
Definition py_fdiv (x : T) (b : Z) : result T :=
  if (b =? 0)%Z then Raise ZeroDivisionError else Ok (x / of_Z b)%flt.
End Numbers.

(** ** The mesh under construction ([bmesh]) *)

(** A vertex handle is the index of the vertex in creation order. *)
Abbreviation vert := nat (only parsing).

Record bmesh (T : Type) : Type := BMesh {
  bm_verts : list (vec3 T);
  bm_faces : list (list vert)
}.

Arguments BMesh {T} _ _.

Section BMeshOps.
Context {T : Type}.

(** [bmesh.new()] *)
Definition bmesh_new : bmesh T := BMesh [] [].

(** [bm.verts.new(co)] *)
Definition verts_new (bm : bmesh T) (co : vec3 T) : vert * bmesh T :=
  (length (bm_verts bm), BMesh (bm_verts bm ++ [co]) (bm_faces bm)).

(** [bm.faces.new(vs)] *)
Definition faces_new (bm : bmesh T) (vs : list vert) : bmesh T :=
  BMesh (bm_verts bm) (bm_faces bm ++ [vs]).
End BMeshOps.

(** ** [create_capsule]

    The vertices and faces that [create_capsule] puts into the [bmesh].
    The [name] argument only labels the mesh and the scene object; the
    object creation that ends the function is [Scene.create_capsule]. *)

Section Capsule.
Context {T : Type} `{Trig T}.
Local Open Scope float_scope.

(** The inner loop of the three ring loops:
    [for j in range(segments_ring): ... ring_verts.append(v)]. *)
Definition ring_loop (ring_radius ring_y : T) (segments_ring : Z)
           (bm : bmesh T) : result (bmesh T * list vert) :=
  for_each (range segments_ring)
    (fun j '(bm, ring_verts) =>
       theta <- py_fdiv (of_Z 2 * t_pi * of_Z j) segments_ring ;;
       let x := ring_radius * t_cos theta in
       let z := ring_radius * t_sin theta in
       let '(v, bm) := verts_new bm (x, ring_y, z) in
       Ok (bm, ring_verts ++ [v]))
    (bm, []).

Definition create_capsule (radius half_length : T)
           (segments_ring segments_height segments_cap : Z)
  : result (bmesh T) :=
  let bm := bmesh_new in
  let total_height := of_Z 2 * half_length in
  let rings := segments_height in
  let cap_rings := segments_cap in
  let verts_by_ring : list (list vert) := [] in
  (* Bottom hemisphere cap *)
  '(bm, verts_by_ring) <-
    for_each (range_down cap_rings 0)
      (fun i '(bm, verts_by_ring) =>
         q <- py_truediv i cap_rings ;;
         let angle := (t_pi / of_Z 2) * q in
         let ring_radius := radius * t_cos angle in
         let ring_y := - half_length - radius * t_sin angle in
         '(bm, ring_verts) <- ring_loop ring_radius ring_y segments_ring bm ;;
         Ok (bm, verts_by_ring ++ [ring_verts]))
      (bm, verts_by_ring) ;;
  (* Cylinder body *)
  '(bm, verts_by_ring) <-
    for_each (range (rings + 1))
      (fun i '(bm, verts_by_ring) =>
         q <- py_truediv i rings ;;
         let ring_y := - half_length + total_height * q in
         '(bm, ring_verts) <- ring_loop radius ring_y segments_ring bm ;;
         Ok (bm, verts_by_ring ++ [ring_verts]))
      (bm, verts_by_ring) ;;
  (* Top hemisphere cap *)
  '(bm, verts_by_ring) <-
    for_each (range_from 1 (cap_rings + 1))
      (fun i '(bm, verts_by_ring) =>
         q <- py_truediv i cap_rings ;;
         let angle := (t_pi / of_Z 2) * q in
         let ring_radius := radius * t_cos angle in
         let ring_y := half_length + radius * t_sin angle in
         '(bm, ring_verts) <- ring_loop ring_radius ring_y segments_ring bm ;;
         Ok (bm, verts_by_ring ++ [ring_verts]))
      (bm, verts_by_ring) ;;
  (* Poles *)
  let '(bottom_pole, bm) :=
    verts_new bm (of_Z 0, - half_length - radius, of_Z 0) in
  let '(top_pole, bm) :=
    verts_new bm (of_Z 0, half_length + radius, of_Z 0) in
  (* Faces between rings *)
  bm <-
    for_each (range (len verts_by_ring - 1))
      (fun i bm =>
         for_each (range segments_ring)
           (fun j bm =>
              j_next <- py_mod (j + 1) segments_ring ;;
              ring_i <- py_index verts_by_ring i ;;
              v1 <- py_index ring_i j ;;
              v2 <- py_index ring_i j_next ;;
              ring_i1 <- py_index verts_by_ring (i + 1) ;;
              v3 <- py_index ring_i1 j_next ;;
              v4 <- py_index ring_i1 j ;;
              Ok (faces_new bm [v1; v2; v3; v4]))
           bm)
      bm ;;
  (* Bottom cap faces *)
  bm <-
    for_each (range segments_ring)
      (fun j bm =>
         j_next <- py_mod (j + 1) segments_ring ;;
         ring_0 <- py_index verts_by_ring 0 ;;
         a <- py_index ring_0 j_next ;;
         b <- py_index ring_0 j ;;
         Ok (faces_new bm [bottom_pole; a; b]))
      bm ;;
  (* Top cap faces *)
  top_ring <- py_index verts_by_ring (-1) ;;
  bm <-
    for_each (range segments_ring)
      (fun j bm =>
         j_next <- py_mod (j + 1) segments_ring ;;
         a <- py_index top_ring j ;;
         b <- py_index top_ring j_next ;;
         Ok (faces_new bm [top_pole; a; b]))
      bm ;;
  Ok bm.
End Capsule.

(** ** The capsule as the specification describes it

    Rings of [segments_ring] vertices stacked along Y, followed by the two
    pole vertices; ring [k] owns the handles [k * s .. k * s + s - 1]. *)

Section CapsuleShape.
Context {T : Type} `{Trig T}.
Local Open Scope float_scope.

(** Vertex [j] of a ring of radius [ring_radius] at height [ring_y]. *)
Definition ring_point (ring_radius ring_y : T) (segments_ring j : Z) : vec3 T :=
  let theta := of_Z 2 * t_pi * of_Z j / of_Z segments_ring in
  (ring_radius * t_cos theta, ring_y, ring_radius * t_sin theta).

Definition ring_points (ring_radius ring_y : T) (segments_ring : Z)
  : list (vec3 T) :=
  map (ring_point ring_radius ring_y segments_ring) (range segments_ring).

(** Profile of the bottom cap: ring radius and height at step [i]. *)
Definition bottom_profile (radius half_length : T) (cap_rings i : Z) : T * T :=
  let angle := (t_pi / of_Z 2) * (of_Z i / of_Z cap_rings) in
  (radius * t_cos angle, - half_length - radius * t_sin angle).

Definition body_profile (radius half_length : T) (rings i : Z) : T * T :=
  (radius, - half_length + of_Z 2 * half_length * (of_Z i / of_Z rings)).

Definition top_profile (radius half_length : T) (cap_rings i : Z) : T * T :=
  let angle := (t_pi / of_Z 2) * (of_Z i / of_Z cap_rings) in
  (radius * t_cos angle, half_length + radius * t_sin angle).

(** The profile of every ring, bottom to top. *)
Definition capsule_profile (radius half_length : T)
           (segments_height segments_cap : Z) : list (T * T) :=
  map (bottom_profile radius half_length segments_cap)
      (range_down segments_cap 0)
  ++ map (body_profile radius half_length segments_height)
      (range (segments_height + 1))
  ++ map (top_profile radius half_length segments_cap)
      (range_from 1 (segments_cap + 1)).

Definition bottom_pole_co (radius half_length : T) : vec3 T :=
  (of_Z 0, - half_length - radius, of_Z 0).

Definition top_pole_co (radius half_length : T) : vec3 T :=
  (of_Z 0, half_length + radius, of_Z 0).

(** All vertices in creation order. *)
Definition capsule_verts (radius half_length : T)
           (segments_ring segments_height segments_cap : Z) : list (vec3 T) :=
  concat (map (fun p => ring_points (fst p) (snd p) segments_ring)
              (capsule_profile radius half_length segments_height segments_cap))
  ++ [bottom_pole_co radius half_length; top_pole_co radius half_length].
End CapsuleShape.

(** Number of rings of a capsule. *)
Definition ring_count (segments_height segments_cap : Z) : nat :=
  Z.to_nat segments_cap + Z.to_nat (segments_height + 1) + Z.to_nat segments_cap.

(** Handle of vertex [j] of ring [k], for rings of [s] vertices. *)
Definition ring_vert (s k j : nat) : vert := k * s + j.

(** The quadrilateral between rings [k] and [k + 1] at angular step [j]. *)
Definition quad (s k j : nat) : list vert :=
  [ring_vert s k j; ring_vert s k ((j + 1) mod s);
   ring_vert s (k + 1) ((j + 1) mod s); ring_vert s (k + 1) j].

(** One quad per angular step between every two consecutive rings. *)
Definition stitched_quads (s nrings : nat) : list (list vert) :=
  flat_map (fun k => map (quad s k) (seq 0 s)) (seq 0 (nrings - 1)).

(** The triangle fan from the bottom pole to the first ring. *)
Definition bottom_fan (s : nat) (bottom_pole : vert) : list (list vert) :=
  map (fun j => [bottom_pole; ring_vert s 0 ((j + 1) mod s); ring_vert s 0 j])
      (seq 0 s).

(** The triangle fan from the top pole to ring [k]. *)
Definition top_fan (s k : nat) (top_pole : vert) : list (list vert) :=
  map (fun j => [top_pole; ring_vert s k j; ring_vert s k ((j + 1) mod s)])
      (seq 0 s).

(** The faces of a capsule with [s] vertices per ring and [nrings] rings. *)
Definition capsule_faces (s nrings : nat) : list (list vert) :=
  stitched_quads s nrings
  ++ bottom_fan s (nrings * s)
  ++ top_fan s (nrings - 1) (nrings * s + 1).

(** Handles held by [verts_by_ring] once all rings are built. *)
Definition ring_table (s nrings : nat) : list (list vert) :=
  map (fun k => seq (k * s) s) (seq 0 nrings).

(** ** Exact real arithmetic as an instance of the float interface *)

#[export] Instance R_Arith : Arith R := {
  of_Z := IZR;
  add := Rplus;
  sub := Rminus;
  mul := Rmult;
  div := Rdiv;
  neg := Ropp
}.

#[export] Instance R_Trig : Trig R := {
  t_cos := cos;
  t_sin := sin;
  t_pi := PI
}.

(** ** Configuration constants *)

Section Configuration.
Context {T : Type} `{Arith T}.
Local Open Scope float_scope.

Definition TORSO_HEIGHT : T := lit 70 100.
Definition TORSO_RADIUS : T := lit 32 100.
Definition HEAD_RADIUS : T := lit 26 100.
Definition HEAD_BLEND_FACTOR : T := lit 6 10.

Definition UPPER_ARM_LENGTH : T := lit 40 100.
Definition UPPER_ARM_RADIUS : T := lit 10 100.
Definition FOREARM_LENGTH : T := lit 36 100.
Definition FOREARM_RADIUS : T := lit 9 100.

Definition THIGH_LENGTH : T := lit 44 100.
Definition THIGH_RADIUS : T := lit 11 100.
Definition SHIN_LENGTH : T := lit 44 100.
Definition SHIN_RADIUS : T := lit 85 1000.

Definition SHOULDER_Y : T := TORSO_HEIGHT * lit 35 100.
Definition SHOULDER_X : T := TORSO_RADIUS + lit 4 100.
Definition HIP_X : T := lit 12 100.
Definition HIP_Y : T := - TORSO_HEIGHT * lit 5 10.
End Configuration.

Definition SUBDIV_LEVEL : Z := 2.

(** ** The calls of [create_capsule] made by the script *)

Section CapsuleCalls.
Context {T : Type} `{Trig T}.
Local Open Scope float_scope.

(** [create_capsule(name, radius, half_length)] with the default segment
    counts. *)
Definition create_capsule_default (radius half_length : T) : result (bmesh T) :=
  create_capsule radius half_length 12 6 6.

(** The torso capsule of [create_bean_torso]. *)
Definition torso_capsule : result (bmesh T) :=
  create_capsule TORSO_RADIUS (TORSO_HEIGHT / of_Z 2) 16 8 6.

(** [create_limb(name, radius, half_length)] *)
Definition create_limb (radius half_length : T) : result (bmesh T) :=
  create_capsule radius half_length 10 4 4.
End CapsuleCalls.

(** ** Geometry of the capsule surface, in exact arithmetic *)

Section Geometry.
Local Open Scope R_scope.

(** A point lies on the capsule of the given radius and half-length along
    Y: on the cylinder wall between the cap centres, on the upper
    hemisphere above [half_length], on the lower one below [-half_length]. *)
Definition on_capsule_surface (radius half_length : R) (v : vec3 R) : Prop :=
  let '(x, y, z) := v in
  (Rabs y <= half_length -> x * x + z * z = radius * radius)
  /\ (half_length < y ->
      x * x + (y - half_length) * (y - half_length) + z * z = radius * radius)
  /\ (y < - half_length ->
      x * x + (y + half_length) * (y + half_length) + z * z = radius * radius).

(** The Y coordinate of a position. *)
Definition y_of (v : vec3 R) : R := snd (fst v).

(** [m] is the largest Y coordinate among [vs]. *)
Definition is_max_y (vs : list (vec3 R)) (m : R) : Prop :=
  (exists v, In v vs /\ y_of v = m) /\ forall v, In v vs -> y_of v <= m.

(** [m] is the smallest Y coordinate among [vs]. *)
Definition is_min_y (vs : list (vec3 R)) (m : R) : Prop :=
  (exists v, In v vs /\ y_of v = m) /\ forall v, In v vs -> m <= y_of v.

Definition vec3_eq_dec (a b : vec3 R) : {a = b} + {a <> b}.
Proof. repeat decide equality; apply Req_dec_T. Defined.

(** Number of vertices of [vs] located at [p]. *)
Definition count_at (p : vec3 R) (vs : list (vec3 R)) : nat :=
  count_occ vec3_eq_dec vs p.

Definition vsub (a b : vec3 R) : vec3 R :=
  let '(ax, ay, az) := a in
  let '(bx, by', bz) := b in
  (ax - bx, ay - by', az - bz).

Definition cross (a b : vec3 R) : vec3 R :=
  let '(ax, ay, az) := a in
  let '(bx, by', bz) := b in
  (ay * bz - az * by', az * bx - ax * bz, ax * by' - ay * bx).

Definition norm (a : vec3 R) : R :=
  let '(ax, ay, az) := a in sqrt (ax * ax + ay * ay + az * az).

(** Area of the triangle [a b c]. *)
Definition triangle_area (a b c : vec3 R) : R :=
  norm (cross (vsub b a) (vsub c a)) / 2.

(** Area of a triangular face given by three vertex handles. *)
Definition face_area (vs : list (vec3 R)) (face : list vert) : option R :=
  match face with
  | [ia; ib; ic] =>
      match nth_error vs ia, nth_error vs ib, nth_error vs ic with
      | Some a, Some b, Some c => Some (triangle_area a b c)
      | _, _, _ => None
      end
  | _ => None
  end.
End Geometry.

(** ** Floats as symbolic expressions

    An instance of the float interface that computes: every operation
    builds the expression it stands for.  It is used to run the embedded
    functions on concrete segment counts. *)

Inductive Sym : Type :=
| SInt (z : Z)
| SVar (name : string)
| SAdd (a b : Sym)
| SSub (a b : Sym)
| SMul (a b : Sym)
| SDiv (a b : Sym)
| SNeg (a : Sym)
| SCos (a : Sym)
| SSin (a : Sym)
| SPi.

#[export] Instance Sym_Arith : Arith Sym := {
  of_Z := SInt;
  add := SAdd;
  sub := SSub;
  mul := SMul;
  div := SDiv;
  neg := SNeg
}.

#[export] Instance Sym_Trig : Trig Sym := {
  t_cos := SCos;
  t_sin := SSin;
  t_pi := SPi
}.

(** The faces of a capsule, or the exception raised. *)
Definition capsule_faces_of {T : Type} (r : result (bmesh T))
  : result (list (list vert)) :=
  bm <- r ;; Ok (bm_faces bm).

(** The number of vertices of a capsule, or the exception raised. *)
Definition capsule_vertex_count_of {T : Type} (r : result (bmesh T))
  : result Z :=
  bm <- r ;; Ok (len (bm_verts bm)).

(** ** Reflections of a position *)

Section Reflections.
Local Open Scope R_scope.

(** Reflection in the plane [x = 0]. *)
Definition mirror_x (v : vec3 R) : vec3 R :=
  let '(x, y, z) := v in (- x, y, z).

(** Reflection in the plane [y = 0]. *)
Definition mirror_y (v : vec3 R) : vec3 R :=
  let '(x, y, z) := v in (x, - y, z).

(** Reflection in the plane [z = 0]. *)
Definition mirror_z (v : vec3 R) : vec3 R :=
  let '(x, y, z) := v in (x, y, - z).
End Reflections.

(** ** [create_armature]: the bone table *)

Section Armature.
Context {T : Type} `{Arith T}.
Local Open Scope float_scope.
Local Open Scope string_scope.
Local Open Scope list_scope.

(** An edit bone.  [parent] refers to another bone of the same armature by
    its handle, the position of that bone in [edit_bones]. *)
Record EditBone : Type := mkEditBone {
  bone_name : String.string;
  bone_head : vec3 T;
  bone_tail : vec3 T;
  bone_parent : option nat;
  bone_use_connect : bool
}.

(** [armature_data.edit_bones], in creation order. *)
Definition edit_bones : Type := list EditBone.

(** [edit_bones.new(name)]: a fresh bone at the origin, without parent. *)
Definition edit_bones_new (name : String.string) (bones : edit_bones)
  : nat * edit_bones :=
  (length bones,
   bones ++ [mkEditBone name (of_Z 0, of_Z 0, of_Z 0) (of_Z 0, of_Z 0, of_Z 0)
                        None false]).

(** Attribute assignment on the bone with handle [h]. *)
Fixpoint update_bone (h : nat) (f : EditBone -> EditBone) (bones : edit_bones)
  : edit_bones :=
  match bones, h with
  | [], _ => []
  | b :: bs, O => f b :: bs
  | b :: bs, S h' => b :: update_bone h' f bs
  end.

Definition set_head (h : nat) (v : vec3 T) : edit_bones -> edit_bones :=
  update_bone h (fun b => mkEditBone (bone_name b) v (bone_tail b)
                                     (bone_parent b) (bone_use_connect b)).

Definition set_tail (h : nat) (v : vec3 T) : edit_bones -> edit_bones :=
  update_bone h (fun b => mkEditBone (bone_name b) (bone_head b) v
                                     (bone_parent b) (bone_use_connect b)).

Definition set_parent (h p : nat) : edit_bones -> edit_bones :=
  update_bone h (fun b => mkEditBone (bone_name b) (bone_head b) (bone_tail b)
                                     (Some p) (bone_use_connect b)).

Definition set_use_connect (h : nat) (c : bool) : edit_bones -> edit_bones :=
  update_bone h (fun b => mkEditBone (bone_name b) (bone_head b) (bone_tail b)
                                     (bone_parent b) c).

(** [bone.tail.copy()] *)
Definition tail_copy (h : nat) (bones : edit_bones) : vec3 T :=
  match nth_error bones h with
  | Some b => bone_tail b
  | None => (of_Z 0, of_Z 0, of_Z 0)
  end.

Definition create_armature : edit_bones :=
  let bones : edit_bones := [] in
  (* Root bone: torso *)
  let '(torso, bones) := edit_bones_new "torso" bones in
  let bones := set_head torso (of_Z 0, of_Z 0, of_Z 0) bones in
  let bones := set_tail torso (of_Z 0, TORSO_HEIGHT * lit 5 10, of_Z 0) bones in
  let bones := set_use_connect torso false bones in
  (* Head bone *)
  let '(head, bones) := edit_bones_new "head" bones in
  let head_base_y := TORSO_HEIGHT * lit 5 10 in
  let bones := set_head head (of_Z 0, head_base_y, of_Z 0) bones in
  let bones :=
    set_tail head (of_Z 0, head_base_y + HEAD_RADIUS * of_Z 2, of_Z 0) bones in
  let bones := set_parent head torso bones in
  let bones := set_use_connect head true bones in
  (* Left arm chain *)
  let '(l_upper, bones) := edit_bones_new "l_upperArm" bones in
  let bones := set_head l_upper (- SHOULDER_X, SHOULDER_Y, of_Z 0) bones in
  let bones :=
    set_tail l_upper (- (SHOULDER_X + UPPER_ARM_LENGTH), SHOULDER_Y, of_Z 0)
             bones in
  let bones := set_parent l_upper torso bones in
  let bones := set_use_connect l_upper false bones in
  let '(l_fore, bones) := edit_bones_new "l_foreArm" bones in
  let bones := set_head l_fore (tail_copy l_upper bones) bones in
  let bones :=
    set_tail l_fore
             (- (SHOULDER_X + UPPER_ARM_LENGTH + FOREARM_LENGTH), SHOULDER_Y,
              of_Z 0) bones in
  let bones := set_parent l_fore l_upper bones in
  let bones := set_use_connect l_fore true bones in
  (* Right arm chain *)
  let '(r_upper, bones) := edit_bones_new "r_upperArm" bones in
  let bones := set_head r_upper (SHOULDER_X, SHOULDER_Y, of_Z 0) bones in
  let bones :=
    set_tail r_upper (SHOULDER_X + UPPER_ARM_LENGTH, SHOULDER_Y, of_Z 0) bones in
  let bones := set_parent r_upper torso bones in
  let bones := set_use_connect r_upper false bones in
  let '(r_fore, bones) := edit_bones_new "r_foreArm" bones in
  let bones := set_head r_fore (tail_copy r_upper bones) bones in
  let bones :=
    set_tail r_fore
             (SHOULDER_X + UPPER_ARM_LENGTH + FOREARM_LENGTH, SHOULDER_Y, of_Z 0)
             bones in
  let bones := set_parent r_fore r_upper bones in
  let bones := set_use_connect r_fore true bones in
  (* Left leg chain *)
  let '(l_thigh, bones) := edit_bones_new "l_thigh" bones in
  let bones := set_head l_thigh (- HIP_X, HIP_Y, of_Z 0) bones in
  let bones := set_tail l_thigh (- HIP_X, HIP_Y - THIGH_LENGTH, of_Z 0) bones in
  let bones := set_parent l_thigh torso bones in
  let bones := set_use_connect l_thigh false bones in
  let '(l_shin, bones) := edit_bones_new "l_shin" bones in
  let bones := set_head l_shin (tail_copy l_thigh bones) bones in
  let bones :=
    set_tail l_shin (- HIP_X, HIP_Y - THIGH_LENGTH - SHIN_LENGTH, of_Z 0) bones in
  let bones := set_parent l_shin l_thigh bones in
  let bones := set_use_connect l_shin true bones in
  (* Right leg chain *)
  let '(r_thigh, bones) := edit_bones_new "r_thigh" bones in
  let bones := set_head r_thigh (HIP_X, HIP_Y, of_Z 0) bones in
  let bones := set_tail r_thigh (HIP_X, HIP_Y - THIGH_LENGTH, of_Z 0) bones in
  let bones := set_parent r_thigh torso bones in
  let bones := set_use_connect r_thigh false bones in
  let '(r_shin, bones) := edit_bones_new "r_shin" bones in
  let bones := set_head r_shin (tail_copy r_thigh bones) bones in
  let bones :=
    set_tail r_shin (HIP_X, HIP_Y - THIGH_LENGTH - SHIN_LENGTH, of_Z 0) bones in
  let bones := set_parent r_shin r_thigh bones in
  let bones := set_use_connect r_shin true bones in
  bones.

(** Name of the parent of [b], if it has one. *)
Definition parent_name (bones : edit_bones) (b : EditBone)
  : option String.string :=
  match bone_parent b with
  | Some p => option_map bone_name (nth_error bones p)
  | None => None
  end.

(** The hierarchy as a table of (bone, parent) names. *)
Definition hierarchy (bones : edit_bones)
  : list (String.string * option String.string) :=
  map (fun b => (bone_name b, parent_name bones b)) bones.

(** Names of the bones without parent. *)
Definition root_names (bones : edit_bones) : list String.string :=
  map bone_name
      (filter (fun b => match bone_parent b with None => true | Some _ => false end)
              bones).

(** Whether following parent links from handle [h] reaches handle [root]
    in at most [fuel] steps. *)
Fixpoint descends_from (bones : edit_bones) (root : nat) (fuel : nat) (h : nat)
  : bool :=
  match fuel with
  | O => false
  | S fuel' =>
      match nth_error bones h with
      | Some b =>
          match bone_parent b with
          | Some p => Nat.eqb p root || descends_from bones root fuel' p
          | None => false
          end
      | None => false
      end
  end.

(** Names of the bones that descend from the bone with handle [root]. *)
Definition descendant_names (bones : edit_bones) (root : nat)
  : list String.string :=
  map (fun hb => bone_name (snd hb))
      (filter (fun hb => descends_from bones root (length bones) (fst hb))
              (combine (seq 0 (length bones)) bones)).

(** The bones created with [use_connect = True]. *)
Definition connected_bones (bones : edit_bones) : list EditBone :=
  filter bone_use_connect bones.
End Armature.

Arguments EditBone T : clear implicits.
Arguments edit_bones T : clear implicits.

(** ** Placement of the limbs in [create_bean_mesh] *)

Section Placement.
Context {T : Type} `{Trig T}.
Local Open Scope float_scope.
Local Open Scope string_scope.
Local Open Scope list_scope.

(** What [create_bean_mesh] decides for one limb capsule: the arguments of
    [create_limb], the Z component of [rotation_euler] when it is assigned,
    and [location]. *)
Record Placement : Type := mkPlacement {
  part_name : string;
  part_radius : T;
  part_half_length : T;
  part_rotation_z : option T;
  part_location : vec3 T
}.

(** The body of the arm loop, for one [(side, sign)]. *)
Definition arm_placements (side : string) (sign : Z) : list Placement :=
  let upper :=
    let upper_x := of_Z sign * (SHOULDER_X + UPPER_ARM_LENGTH / of_Z 2) in
    mkPlacement ("UpperArm_" ++ side) UPPER_ARM_RADIUS
                (UPPER_ARM_LENGTH / of_Z 2)
                (Some (of_Z sign * t_pi / of_Z 2))
                (upper_x, SHOULDER_Y, of_Z 0) in
  let forearm :=
    let forearm_x :=
      of_Z sign * (SHOULDER_X + UPPER_ARM_LENGTH + FOREARM_LENGTH / of_Z 2
                   + lit 2 100) in
    mkPlacement ("ForeArm_" ++ side) FOREARM_RADIUS (FOREARM_LENGTH / of_Z 2)
                (Some (of_Z sign * t_pi / of_Z 2))
                (forearm_x, SHOULDER_Y, of_Z 0) in
  [upper; forearm].

(** The body of the leg loop, for one [(side, sign)]. *)
Definition leg_placements (side : string) (sign : Z) : list Placement :=
  let thigh :=
    let thigh_x := of_Z sign * HIP_X in
    let thigh_y := HIP_Y - THIGH_LENGTH / of_Z 2 in
    mkPlacement ("Thigh_" ++ side) THIGH_RADIUS (THIGH_LENGTH / of_Z 2) None
                (thigh_x, thigh_y, of_Z 0) in
  let shin :=
    let shin_x := of_Z sign * HIP_X in
    let shin_y := HIP_Y - THIGH_LENGTH - SHIN_LENGTH / of_Z 2 - lit 2 100 in
    mkPlacement ("Shin_" ++ side) SHIN_RADIUS (SHIN_LENGTH / of_Z 2) None
                (shin_x, shin_y, of_Z 0) in
  [thigh; shin].

(** The limbs appended to [parts], in order. *)
Definition limb_placements : list Placement :=
  flat_map (fun '(side, sign) => arm_placements side sign)
           [("L", (-1)%Z); ("R", 1%Z)]
  ++ flat_map (fun '(side, sign) => leg_placements side sign)
              [("L", (-1)%Z); ("R", 1%Z)].

(** [parts] entry by name. *)
Definition find_part (name : string) (parts : list Placement)
  : option Placement :=
  find (fun p => String.eqb (part_name p) name) parts.
End Placement.

Arguments Placement T : clear implicits.

(** Bone of an armature by name. *)
Definition find_bone {T : Type} (name : string) (bones : edit_bones T)
  : option (EditBone T) :=
  find (fun b => String.eqb (bone_name b) name) bones.

(** The midpoint of a bone, in exact arithmetic. *)
Definition bone_midpoint (b : EditBone R) : vec3 R :=
  let '(hx, hy, hz) := bone_head b in
  let '(tx, ty, tz) := bone_tail b in
  ((hx + tx) / 2, (hy + ty) / 2, (hz + tz) / 2)%R.

(** The length of a bone, in exact arithmetic. *)
Definition bone_length (b : EditBone R) : R :=
  norm (vsub (bone_tail b) (bone_head b)).

(** The bone on the other side of the body: [l_x] for [r_x] and back;
    [torso] and [head] are their own mirror images. *)
Definition mirror_bone_name (name : string) : string :=
  match name with
  | String "l"%char (String "_"%char rest) => String "r" (String "_" rest)
  | String "r"%char (String "_"%char rest) => String "l" (String "_" rest)
  | _ => name
  end.

Definition vadd (a b : vec3 R) : vec3 R :=
  let '(ax, ay, az) := a in
  let '(bx, by', bz) := b in
  (ax + bx, ay + by', az + bz)%R.

(** Each limb capsule with the bone it covers and the offset of the capsule
    centre from the middle of that bone. *)
Definition limb_bone_offsets : list (string * string * vec3 R) :=
  [("UpperArm_L", "l_upperArm", (0, 0, 0));
   ("ForeArm_L", "l_foreArm", (- (2 / 100), 0, 0));
   ("UpperArm_R", "r_upperArm", (0, 0, 0));
   ("ForeArm_R", "r_foreArm", (2 / 100, 0, 0));
   ("Thigh_L", "l_thigh", (0, 0, 0));
   ("Shin_L", "l_shin", (0, - (2 / 100), 0));
   ("Thigh_R", "r_thigh", (0, 0, 0));
   ("Shin_R", "r_shin", (0, - (2 / 100), 0))]%R%string.

(** The left and right capsule of each limb segment. *)
Definition limb_pairs : list (string * string) :=
  [("UpperArm_L", "UpperArm_R"); ("ForeArm_L", "ForeArm_R");
   ("Thigh_L", "Thigh_R"); ("Shin_L", "Shin_R")]%string.

(** ** Output path: [os.path] on a POSIX host and the path logic of [main] *)

Section Paths.
Local Open Scope char_scope.

(** A path is a Python [str], here a list of characters. *)
Definition path : Type := list ascii.

Definition str (s : string) : path := list_ascii_of_string s.

Definition sep : ascii := "/".

Fixpoint str_eqb (a b : path) : bool :=
  match a, b with
  | [], [] => true
  | x :: a', y :: b' => Ascii.eqb x y && str_eqb a' b'
  | _, _ => false
  end.

(** [not s] *)
Definition is_empty {A : Type} (s : list A) : bool :=
  match s with [] => true | _ => false end.

(** [s.startswith(p)] *)
Fixpoint startswith (s p : path) : bool :=
  match p, s with
  | [], _ => true
  | y :: p', x :: s' => Ascii.eqb x y && startswith s' p'
  | _ :: _, [] => false
  end.

(** [s.endswith(p)] *)
Definition endswith (s p : path) : bool := startswith (rev s) (rev p).

(** [s.split('/')] *)
Fixpoint split_sep (s : path) : list path :=
  match s with
  | [] => [[]]
  | c :: s' =>
      if Ascii.eqb c sep then [] :: split_sep s'
      else match split_sep s' with
           | comp :: rest => (c :: comp) :: rest
           | [] => [[c]]
           end
  end.

(** ['/'.join(comps)] *)
Fixpoint join_sep (comps : list path) : path :=
  match comps with
  | [] => []
  | [c] => c
  | c :: rest => c ++ sep :: join_sep rest
  end.

(** [s.rstrip('/')] *)
Definition rstrip_sep (s : path) : path :=
  rev ((fix strip (r : path) : path :=
          match r with
          | c :: r' => if Ascii.eqb c sep then strip r' else r
          | [] => []
          end) (rev s)).

(** [posixpath.isabs] *)
Definition isabs (p : path) : bool := startswith p [sep].

(** [posixpath.join(a, b)] *)
Definition join (a b : path) : path :=
  if startswith b [sep] then b
  else if is_empty a || endswith a [sep] then a ++ b
  else a ++ sep :: b.

(** One iteration of the component loop of [posixpath.normpath]. *)
Definition normpath_step (initial_slashes : nat) (new_comps : list path)
           (comp : path) : list path :=
  if str_eqb comp (str "") || str_eqb comp (str ".") then new_comps
  else if negb (str_eqb comp (str ".."))
          || (Nat.eqb initial_slashes 0 && is_empty new_comps)
          || match rev new_comps with
             | l :: _ => str_eqb l (str "..")
             | [] => false
             end
       then new_comps ++ [comp]
       else if negb (is_empty new_comps) then removelast new_comps
       else new_comps.

(** [posixpath.normpath] *)
Definition normpath (p : path) : path :=
  if is_empty p then str "."
  else
    let initial_slashes :=
      if startswith p [sep] then
        if startswith p [sep; sep] && negb (startswith p [sep; sep; sep])
        then 2 else 1
      else 0 in
    let comps := split_sep p in
    let new_comps := fold_left (normpath_step initial_slashes) comps [] in
    let p' := repeat sep initial_slashes ++ join_sep new_comps in
    if is_empty p' then str "." else p'.

(** [posixpath.dirname] *)
Definition dirname (p : path) : path :=
  let head :=
    rev ((fix drop (r : path) : path :=
            match r with
            | c :: r' => if Ascii.eqb c sep then r else drop r'
            | [] => []
            end) (rev p)) in
  if negb (is_empty head)
     && negb (str_eqb head (repeat sep (length head)))
  then rstrip_sep head
  else head.

(** What the script reads from its environment. *)
Record Env : Type := mkEnv {
  isdir : path -> bool;      (* [os.path.isdir] *)
  getcwd : path;             (* [os.getcwd()] *)
  script_file : path         (* [__file__] *)
}.

(** [posixpath.abspath] *)
Definition abspath (e : Env) (p : path) : path :=
  normpath (if isabs p then p else join (getcwd e) p).

Definition OUTPUT_PATH : path :=
  str "apps/client/public/models/bean_character.glb".

(** The components of [OUTPUT_PATH]. *)
Definition output_comps : list path :=
  [str "apps"; str "client"; str "public"; str "models";
   str "bean_character.glb"].

(** The output path computed by [main]. *)
Definition main_output_path (e : Env) : path :=
  if isdir e (str "apps/client/public") then abspath e OUTPUT_PATH
  else
    let script_dir := dirname (abspath e (script_file e)) in
    let project_root := dirname script_dir in
    join project_root OUTPUT_PATH.

(** [s] ends with [suffix]. *)
Definition ends_with (s suffix : path) : Prop :=
  exists prefix : path, s = prefix ++ suffix.
End Paths.

(** ** Named versions of the loops inside [dirname] and [rstrip_sep] *)

Section PathLoops.
Local Open Scope char_scope.

(** The scan of [p.rfind('/')], on the reversed string: drop characters
    up to the last separator. *)
Fixpoint drop_to_sep (r : path) : path :=
  match r with
  | c :: r' => if Ascii.eqb c sep then r else drop_to_sep r'
  | [] => []
  end.

(** The scan of [s.rstrip('/')], on the reversed string. *)
Fixpoint strip_seps (r : path) : path :=
  match r with
  | c :: r' => if Ascii.eqb c sep then strip_seps r' else r
  | [] => []
  end.

(** The argument of [os.makedirs] in [export_glb]. *)
Definition makedirs_target (output_path : path) : path := dirname output_path.

(** A path component that [normpath] keeps as it is: not empty, not [.]
    or [..], and without separator. *)
Definition clean_comp (c : path) : bool :=
  negb (is_empty c)
  && negb (str_eqb c (str "."))
  && negb (str_eqb c (str ".."))
  && forallb (fun ch => negb (Ascii.eqb ch sep)) c.

(** The absolute path with the given components. *)
Definition root_path (comps : list path) : path := sep :: join_sep comps.
End PathLoops.

(** ** The host scene: objects, selection, materials and export requests

    The part of the host state that the script's calls read or change and
    that the export depends on.  Mesh editing operators ([remove_doubles],
    shading, normals, [transform_apply]) act on geometry only and leave this
    state as it is.  The calls of [create_capsule] made here never raise
    (their [segments_height] is 8 or 4), so the scene functions are total. *)

Module Scene.
Local Open Scope string_scope.
Local Open Scope list_scope.

Inductive ObjKind : Type := MeshObj | ArmatureObj | OtherObj.

(** A scene object; [obj_id] stands for the Python reference to it. *)
Record Object : Type := mkObject {
  obj_id : nat;
  obj_name : string;
  obj_kind : ObjKind;
  obj_selected : bool;
  obj_materials : list string;
  obj_modifiers : list string;
  obj_parent : option nat
}.

(** The keyword arguments of [bpy.ops.export_scene.gltf] together with the
    objects that were selected when it was called. *)
Record ExportCall : Type := mkExportCall {
  filepath : path;
  export_format : string;
  use_selection : bool;
  export_apply : bool;
  export_animations : bool;
  export_skins : bool;
  export_normals : bool;
  export_materials : string;
  export_colors : bool;
  export_yup : bool;
  selection : list Object
}.

Record State : Type := mkState {
  objects : list Object;
  active : option nat;
  exports : list ExportCall
}.

(** A scene holding the given objects, before the script runs. *)
Definition start (objs : list Object) : State := mkState objs None [].

Definition with_objects (s : State) (objs : list Object) : State :=
  mkState objs (active s) (exports s).

Definition update_object (id : nat) (f : Object -> Object) (s : State) : State :=
  with_objects s
    (map (fun o => if Nat.eqb (obj_id o) id then f o else o) (objects s)).

Definition set_selected (b : bool) (o : Object) : Object :=
  mkObject (obj_id o) (obj_name o) (obj_kind o) b
           (obj_materials o) (obj_modifiers o) (obj_parent o).

(** [bpy.ops.object.select_all(action=...)], [true] for ["SELECT"]. *)
Definition select_all (select : bool) (s : State) : State :=
  with_objects s (map (set_selected select) (objects s)).

(** [bpy.ops.object.delete(use_global=False)] *)
Definition object_delete (s : State) : State :=
  let kept := filter (fun o => negb (obj_selected o)) (objects s) in
  mkState kept
          (match active s with
           | Some a => if existsb (fun o => Nat.eqb (obj_id o) a) kept
                       then Some a else None
           | None => None
           end)
          (exports s).

(** [bpy.data.objects.new(name, data)] followed by
    [bpy.context.collection.objects.link(obj)]. *)
Definition objects_new (name : string) (kind : ObjKind) (s : State)
  : nat * State :=
  let id := S (list_max (map obj_id (objects s))) in
  (id, with_objects s (objects s ++ [mkObject id name kind false [] [] None])).

(** [obj.select_set(b)] *)
Definition select_set (id : nat) (b : bool) : State -> State :=
  update_object id (set_selected b).

(** [bpy.context.view_layer.objects.active = obj] *)
Definition set_active (id : nat) (s : State) : State :=
  mkState (objects s) (Some id) (exports s).

(** [obj.name = name] *)
Definition set_name (id : nat) (name : string) : State -> State :=
  update_object id (fun o =>
    mkObject (obj_id o) name (obj_kind o) (obj_selected o)
             (obj_materials o) (obj_modifiers o) (obj_parent o)).

Definition is_active (s : State) (o : Object) : bool :=
  match active s with
  | Some a => Nat.eqb (obj_id o) a
  | None => false
  end.

(** [bpy.ops.object.join()]: the selected objects are merged into the
    active one, which takes over their material slots. *)
Definition object_join (s : State) : State :=
  let joined :=
    filter (fun o => obj_selected o && negb (is_active s o)) (objects s) in
  let slots := concat (map obj_materials joined) in
  with_objects s
    (map (fun o =>
            if is_active s o
            then mkObject (obj_id o) (obj_name o) (obj_kind o) (obj_selected o)
                          (nodup string_dec (obj_materials o ++ slots))
                          (obj_modifiers o) (obj_parent o)
            else o)
         (filter (fun o => negb (obj_selected o) || is_active s o)
                 (objects s))).

(** Operators that change geometry, shading or the edit mode only. *)
Definition geometry_op (op : string) (s : State) : State := s.

(** [bpy.ops.object.parent_set(type="ARMATURE_AUTO")] *)
Definition parent_set_armature_auto (s : State) : State :=
  with_objects s
    (map (fun o =>
            if obj_selected o && negb (is_active s o)
            then mkObject (obj_id o) (obj_name o) (obj_kind o) (obj_selected o)
                          (obj_materials o) (obj_modifiers o ++ ["Armature"])
                          (active s)
            else o)
         (objects s)).

(** [obj.modifiers.new(name, type)] *)
Definition modifiers_new (id : nat) (name : string) : State -> State :=
  update_object id (fun o =>
    mkObject (obj_id o) (obj_name o) (obj_kind o) (obj_selected o)
             (obj_materials o) (obj_modifiers o ++ [name]) (obj_parent o)).

(** [obj.data.materials.append(mat)] *)
Definition materials_append (id : nat) (mat : string) : State -> State :=
  update_object id (fun o =>
    mkObject (obj_id o) (obj_name o) (obj_kind o) (obj_selected o)
             (obj_materials o ++ [mat]) (obj_modifiers o) (obj_parent o)).

(** [bpy.ops.export_scene.gltf(...)] *)
Definition export_scene_gltf (call : list Object -> ExportCall) (s : State)
  : State :=
  mkState (objects s) (active s)
          (exports s ++ [call (filter obj_selected (objects s))]).

(** *** The script's functions, as transformers of the scene *)

Definition clear_scene (s : State) : State :=
  let s := select_all true s in
  let s := object_delete s in
  (* orphan meshes, materials and armatures are removed: no object left *)
  s.

(** The object creation at the end of [create_capsule]. *)
Definition create_capsule (name : string) (s : State) : nat * State :=
  objects_new name MeshObj s.

Definition create_sphere (name : string) (s : State) : nat * State :=
  objects_new name MeshObj s.

Definition create_bean_torso (s : State) : nat * State :=
  let '(torso, s) := create_capsule "BeanTorso" s in
  let '(head, s) := create_sphere "BeanHead" s in
  let s := geometry_op "head.location.y" s in
  let s := select_all false s in
  let s := select_set torso true s in
  let s := select_set head true s in
  let s := set_active torso s in
  let s := object_join s in
  let s := geometry_op "mode_set EDIT" s in
  let s := geometry_op "mesh.select_all SELECT" s in
  let s := geometry_op "mesh.remove_doubles 0.02" s in
  let s := geometry_op "mesh.faces_shade_smooth" s in
  let s := geometry_op "mode_set OBJECT" s in
  let s := set_name torso "BeanBody" s in
  (torso, s).

Definition create_limb (name : string) (s : State) : nat * State :=
  create_capsule name s.

(** One iteration of the arm loop of [create_bean_mesh]. *)
Definition add_arm (side : string) (st : list nat * State) : list nat * State :=
  let '(parts, s) := st in
  let '(upper, s) := create_limb ("UpperArm_" ++ side) s in
  let s := geometry_op "rotation_euler, location" s in
  let parts := parts ++ [upper] in
  let '(forearm, s) := create_limb ("ForeArm_" ++ side) s in
  let s := geometry_op "rotation_euler, location" s in
  let parts := parts ++ [forearm] in
  (parts, s).

(** One iteration of the leg loop of [create_bean_mesh]. *)
Definition add_leg (side : string) (st : list nat * State) : list nat * State :=
  let '(parts, s) := st in
  let '(thigh, s) := create_limb ("Thigh_" ++ side) s in
  let s := geometry_op "location" s in
  let parts := parts ++ [thigh] in
  let '(shin, s) := create_limb ("Shin_" ++ side) s in
  let s := geometry_op "location" s in
  let parts := parts ++ [shin] in
  (parts, s).

Definition create_bean_mesh (s : State) : nat * State :=
  let '(body, s) := create_bean_torso s in
  let parts := [body] in
  let '(parts, s) := fold_left (fun st side => add_arm side st) ["L"; "R"] (parts, s) in
  let '(parts, s) := fold_left (fun st side => add_leg side st) ["L"; "R"] (parts, s) in
  let s := fold_left (fun s part => select_set part true s) parts s in
  let s := set_active body s in
  let s := geometry_op "object.transform_apply" s in
  let s := object_join s in
  let s := set_name body "BeanCharacter" s in
  let s := geometry_op "mode_set EDIT" s in
  let s := geometry_op "mesh.select_all SELECT" s in
  let s := geometry_op "mesh.remove_doubles 0.015" s in
  let s := geometry_op "mesh.normals_make_consistent" s in
  let s := geometry_op "mode_set OBJECT" s in
  (body, s).

(** The object handling of [create_armature]; the bones are built by
    [create_armature] above. *)
Definition create_armature (s : State) : nat * State :=
  let '(armature_obj, s) := objects_new "BeanArmature" ArmatureObj s in
  let s := set_active armature_obj s in
  let s := geometry_op "mode_set EDIT" s in
  let s := geometry_op "edit_bones" s in
  let s := geometry_op "mode_set OBJECT" s in
  (armature_obj, s).

Definition parent_mesh_to_armature (mesh_obj armature_obj : nat) (s : State)
  : State :=
  let s := select_all false s in
  let s := select_set mesh_obj true s in
  let s := select_set armature_obj true s in
  let s := set_active armature_obj s in
  parent_set_armature_auto s.

Definition add_subdivision_and_smooth (mesh_obj : nat) (s : State) : State :=
  let s := modifiers_new mesh_obj "Subdivision" s in
  let s := set_active mesh_obj s in
  geometry_op "object.shade_smooth" s.

Definition add_material (mesh_obj : nat) (s : State) : State :=
  materials_append mesh_obj "BeanMaterial" s.

Definition export_glb (armature_obj mesh_obj : nat) (output_path : path)
           (s : State) : State :=
  let s := select_all false s in
  let s := select_set armature_obj true s in
  let s := select_set mesh_obj true s in
  let s := set_active armature_obj s in
  (* os.makedirs(os.path.dirname(output_path), exist_ok=True) *)
  export_scene_gltf
    (mkExportCall output_path "GLB" true true false true true "EXPORT"
                  false true)
    s.

Definition main (e : Env) (s : State) : State :=
  let output_path := main_output_path e in
  let s := clear_scene s in
  let '(bean_mesh, s) := create_bean_mesh s in
  let '(armature, s) := create_armature s in
  let s := parent_mesh_to_armature bean_mesh armature s in
  let s := add_subdivision_and_smooth bean_mesh s in
  let s := add_material bean_mesh s in
  export_glb armature bean_mesh output_path s.

(** How an exported object is summarised: name, kind and material slots. *)
Definition summary (o : Object) : string * ObjKind * list string :=
  (obj_name o, obj_kind o, obj_materials o).
End Scene.

(** ** What the scene functions leave behind *)

Section SceneResult.
Local Open Scope string_scope.
Local Open Scope list_scope.

(** The export request that [export_glb] sends for a given path and
    selection. *)
Definition glb_request (output_path : path) (sel : list Scene.Object)
  : Scene.ExportCall :=
  Scene.mkExportCall output_path "GLB" true true false true true "EXPORT"
                     false true sel.

(** The mesh object at the end of [main]. *)
Definition bean_character_object : Scene.Object :=
  Scene.mkObject 1 "BeanCharacter" Scene.MeshObj true ["BeanMaterial"]
                 ["Armature"; "Subdivision"] (Some 2).

(** The armature object at the end of [main]. *)
Definition bean_armature_object : Scene.Object :=
  Scene.mkObject 2 "BeanArmature" Scene.ArmatureObj true [] [] None.

(** An object after [parent_set(type="ARMATURE_AUTO")] made it a child of
    the armature [arm]. *)
Definition parented_to (arm : nat) (o : Scene.Object) : Scene.Object :=
  Scene.mkObject (Scene.obj_id o) (Scene.obj_name o) (Scene.obj_kind o)
                 (Scene.obj_selected o) (Scene.obj_materials o)
                 (Scene.obj_modifiers o ++ ["Armature"]) (Some arm).
End SceneResult.

(* ================================================================== *)
(** * Part II: properties                                               *)
(* ================================================================== *)

(** ** Built-ins *)

Lemma range_length (n : Z) : length (range n) = Z.to_nat n.
Proof. unfold range. now rewrite length_map, length_seq. Qed.

Lemma range_down_length (a b : Z) :
  length (range_down a b) = Z.to_nat (a - b).
Proof. unfold range_down. now rewrite length_map, length_seq. Qed.

Lemma range_from_length (a b : Z) :
  length (range_from a b) = Z.to_nat (b - a).
Proof. unfold range_from. now rewrite length_map, length_seq. Qed.

Lemma range_nonpos (n : Z) : (n <= 0)%Z -> range n = [].
Proof.
  intros Hn. unfold range.
  replace (Z.to_nat n) with 0 by lia. reflexivity.
Qed.

Lemma in_range (n j : Z) : In j (range n) <-> (0 <= j < n)%Z.
Proof.
  unfold range. rewrite in_map_iff. split.
  - intros (k & <- & Hk). apply in_seq in Hk. lia.
  - intros Hj. exists (Z.to_nat j). split; [lia|]. apply in_seq. lia.
Qed.

Lemma in_range_down (a j : Z) : In j (range_down a 0) <-> (1 <= j <= a)%Z.
Proof.
  unfold range_down. rewrite in_map_iff. split.
  - intros (k & <- & Hk). apply in_seq in Hk. lia.
  - intros Hj. exists (Z.to_nat (a - j)). split; [lia|]. apply in_seq. lia.
Qed.

Lemma in_range_from (a j : Z) : In j (range_from 1 (a + 1)) <-> (1 <= j <= a)%Z.
Proof.
  unfold range_from. rewrite in_map_iff. split.
  - intros (k & <- & Hk). apply in_seq in Hk. lia.
  - intros Hj. exists (Z.to_nat (j - 1)). split; [lia|]. apply in_seq. lia.
Qed.

Lemma py_index_nat {A : Type} (l : list A) (k : nat) (a : A) :
  nth_error l k = Some a -> py_index l (Z.of_nat k) = Ok a.
Proof.
  intros Hk. unfold py_index. cbv zeta.
  destruct (Z.ltb_spec (Z.of_nat k) 0); [lia|].
  destruct (Z.ltb_spec (Z.of_nat k) 0); [lia|].
  now rewrite Nat2Z.id, Hk.
Qed.

Lemma py_index_last {A : Type} (l : list A) (a : A) :
  py_index (l ++ [a]) (-1) = Ok a.
Proof.
  unfold py_index, len. cbv zeta. cbn [Z.ltb Z.compare].
  rewrite length_app. cbn [length].
  destruct (Z.ltb_spec (Z.of_nat (length l + 1) + -1) 0); [lia|].
  replace (Z.to_nat (Z.of_nat (length l + 1) + -1)) with (length l) by lia.
  rewrite nth_error_app2 by lia. now rewrite Nat.sub_diag.
Qed.

Lemma py_index_nil {A : Type} (i : Z) : py_index (@nil A) i = Raise IndexError.
Proof.
  unfold py_index, len. cbv zeta. cbn [length Z.of_nat].
  destruct (Z.ltb_spec i 0).
  - destruct (Z.ltb_spec (0 + i) 0); [reflexivity | lia].
  - destruct (Z.ltb_spec i 0); [lia|]. now destruct (Z.to_nat i).
Qed.

Lemma py_mod_nat (j : nat) (S : Z) :
  (0 < S)%Z ->
  py_mod (Z.of_nat j + 1) S = Ok (Z.of_nat ((j + 1) mod Z.to_nat S)).
Proof.
  intros HS. unfold py_mod.
  destruct (Z.eqb_spec S 0); [lia|]. f_equal.
  rewrite Nat2Z.inj_mod, Z2Nat.id by lia. f_equal. lia.
Qed.

(** A loop whose body only appends a face appends one face per iteration. *)
Lemma for_each_faces {T A : Type} (f : A -> list vert)
      (body : A -> bmesh T -> result (bmesh T)) (xs : list A) :
  (forall x bm, In x xs -> body x bm = Ok (faces_new bm (f x))) ->
  forall bm, for_each xs body bm
             = Ok (BMesh (bm_verts bm) (bm_faces bm ++ map f xs)).
Proof.
  induction xs as [|x xs IH]; intros Hb bm; cbn [for_each map].
  - rewrite app_nil_r. now destruct bm.
  - rewrite Hb by now left. cbn [bind].
    rewrite IH by (intros; apply Hb; now right).
    cbn [faces_new bm_verts bm_faces]. now rewrite <- app_assoc.
Qed.

(** The same for a loop whose body appends a block of faces. *)
Lemma for_each_face_blocks {T A : Type} (f : A -> list (list vert))
      (body : A -> bmesh T -> result (bmesh T)) (xs : list A) :
  (forall x bm, In x xs ->
     body x bm = Ok (BMesh (bm_verts bm) (bm_faces bm ++ f x))) ->
  forall bm, for_each xs body bm
             = Ok (BMesh (bm_verts bm) (bm_faces bm ++ flat_map f xs)).
Proof.
  induction xs as [|x xs IH]; intros Hb bm; cbn [for_each flat_map].
  - rewrite app_nil_r. now destruct bm.
  - rewrite Hb by now left. cbn [bind].
    rewrite IH by (intros; apply Hb; now right).
    cbn [bm_verts bm_faces]. now rewrite <- app_assoc.
Qed.

(** ** The ring loops of [create_capsule] *)

Section CapsuleLoops.
Context {T : Type} `{Trig T}.
Local Open Scope float_scope.

Lemma ring_loop_body (rr ry : T) (S : Z) (js : list Z) :
  S <> 0%Z ->
  forall (bm : bmesh T) (rv : list vert),
    for_each js
      (fun j '(bm, ring_verts) =>
         theta <- py_fdiv (of_Z 2 * t_pi * of_Z j) S ;;
         let x := rr * t_cos theta in
         let z := rr * t_sin theta in
         let '(v, bm) := verts_new bm (x, ry, z) in
         Ok (bm, ring_verts ++ [v]))
      (bm, rv)
    = Ok (BMesh (bm_verts bm ++ map (ring_point rr ry S) js) (bm_faces bm),
          rv ++ seq (length (bm_verts bm)) (length js)).
Proof.
  intros HS. induction js as [|j js IH]; intros bm rv; cbn [for_each].
  - cbn. rewrite !app_nil_r. now destruct bm.
  - unfold py_fdiv at 1. destruct (Z.eqb_spec S 0); [lia|].
    cbn [bind verts_new]. rewrite IH.
    cbn [bm_verts bm_faces map length seq].
    rewrite length_app, <- !app_assoc. cbn [length app].
    now rewrite Nat.add_1_r.
Qed.

Lemma ring_loop_ok (rr ry : T) (S : Z) (bm : bmesh T) :
  ring_loop rr ry S bm
  = Ok (BMesh (bm_verts bm ++ ring_points rr ry S) (bm_faces bm),
        seq (length (bm_verts bm)) (Z.to_nat S)).
Proof.
  unfold ring_loop, ring_points.
  destruct (Z.eq_dec S 0) as [->|HS].
  - cbn. rewrite app_nil_r. now destruct bm.
  - rewrite ring_loop_body by assumption. now rewrite range_length.
Qed.

Lemma ring_points_length (rr ry : T) (S : Z) :
  length (ring_points rr ry S) = Z.to_nat S.
Proof. unfold ring_points. now rewrite length_map, range_length. Qed.

(** One of the three outer loops: [g] is the profile (ring radius and
    height as a function of the quotient [i / d]). *)
Lemma rings_loop_ok (g : T -> T * T) (S d : Z) (ixs : list Z) :
  d <> 0%Z ->
  forall (bm : bmesh T) (vbr : list (list vert)),
    for_each ixs
      (fun i '(bm, verts_by_ring) =>
         q <- py_truediv i d ;;
         '(bm, ring_verts) <- ring_loop (fst (g q)) (snd (g q)) S bm ;;
         Ok (bm, verts_by_ring ++ [ring_verts]))
      (bm, vbr)
    = Ok (BMesh (bm_verts bm
                 ++ concat (map (fun i => ring_points
                                            (fst (g (of_Z i / of_Z d)))
                                            (snd (g (of_Z i / of_Z d))) S) ixs))
                (bm_faces bm),
          vbr ++ map (fun k => seq (length (bm_verts bm) + k * Z.to_nat S)
                                   (Z.to_nat S))
                     (seq 0 (length ixs))).
Proof.
  intros Hd. induction ixs as [|i ixs IH]; intros bm vbr; cbn [for_each].
  - cbn. rewrite !app_nil_r. now destruct bm.
  - unfold py_truediv at 1. destruct (Z.eqb_spec d 0); [lia|].
    cbn [bind]. rewrite ring_loop_ok. cbn [bind]. rewrite IH.
    cbn [bm_verts bm_faces map concat length seq].
    rewrite <- !app_assoc. cbn [app]. do 3 f_equal. f_equal.
    + f_equal. lia.
    + rewrite <- seq_shift, map_map. apply map_ext. intros k.
      rewrite length_app, ring_points_length. f_equal. lia.
Qed.

Lemma rings_loop_nil (body : Z -> bmesh T * list (list vert)
                             -> result (bmesh T * list (list vert)))
      (st : bmesh T * list (list vert)) :
  for_each [] body st = Ok st.
Proof. reflexivity. Qed.
End CapsuleLoops.

(** ** The handle table and the face loops *)

Lemma ring_table_length (s n : nat) : length (ring_table s n) = n.
Proof. unfold ring_table. now rewrite length_map, length_seq. Qed.

Lemma ring_table_nth (s n k : nat) :
  k < n -> nth_error (ring_table s n) k = Some (seq (k * s) s).
Proof.
  intros Hk. unfold ring_table.
  rewrite nth_error_map, nth_error_seq.
  destruct (Nat.ltb_spec k n); [reflexivity | lia].
Qed.

Lemma ring_nth (a s j : nat) :
  j < s -> nth_error (seq a s) j = Some (a + j).
Proof.
  intros Hj. rewrite nth_error_seq.
  destruct (Nat.ltb_spec j s); [reflexivity | lia].
Qed.

Lemma seq_offset (a b : nat) : seq a b = map (fun k => a + k) (seq 0 b).
Proof.
  revert a. induction b as [|b IH]; intros a; cbn [seq map]; [reflexivity|].
  f_equal; [lia|]. rewrite IH, <- seq_shift, map_map.
  apply map_ext. intros k. lia.
Qed.

Lemma ring_table_app (s a b : nat) :
  ring_table s (a + b)
  = ring_table s a ++ map (fun k => seq (a * s + k * s) s) (seq 0 b).
Proof.
  unfold ring_table. rewrite seq_app, map_app.
  cbn [Nat.add]. rewrite (seq_offset a b), map_map.
  apply f_equal, map_ext. intros k. f_equal. lia.
Qed.

Lemma concat_rings_length {A B : Type} (f : A -> list B) (s : nat) (l : list A) :
  (forall a, length (f a) = s) ->
  length (concat (map f l)) = length l * s.
Proof.
  intros Hf. induction l as [|a l IH]; cbn [map concat length]; [reflexivity|].
  rewrite length_app, Hf, IH. lia.
Qed.

Section FaceLoops.
Context {T : Type}.

Lemma quad_loop_ok (S : Z) (n : nat) (bm : bmesh T) :
  for_each (range (len (ring_table (Z.to_nat S) n) - 1))
    (fun (i : Z) (bm4 : bmesh T) =>
       for_each (range S)
         (fun (j : Z) (bm5 : bmesh T) =>
            j_next <- py_mod (j + 1) S;;
            ring_i <- py_index (ring_table (Z.to_nat S) n) i;;
            v1 <- py_index ring_i j;;
            v2 <- py_index ring_i j_next;;
            ring_i1 <- py_index (ring_table (Z.to_nat S) n) (i + 1);;
            v3 <- py_index ring_i1 j_next;;
            v4 <- py_index ring_i1 j;; Ok (faces_new bm5 [v1; v2; v3; v4]))
         bm4)
    bm
  = Ok (BMesh (bm_verts bm)
              (bm_faces bm ++ stitched_quads (Z.to_nat S) n)).
Proof.
  unfold len. rewrite ring_table_length.
  rewrite (for_each_face_blocks
             (fun i => map (quad (Z.to_nat S) (Z.to_nat i)) (seq 0 (Z.to_nat S)))).
  - do 3 f_equal. unfold stitched_quads, range.
    replace (Z.to_nat (Z.of_nat n - 1)) with (n - 1) by lia.
    rewrite !flat_map_concat_map, map_map. f_equal.
    apply map_ext. intros k. now rewrite Nat2Z.id.
  - intros i bm0 Hi. apply in_range in Hi.
    rewrite (for_each_faces (fun j => quad (Z.to_nat S) (Z.to_nat i) (Z.to_nat j))).
    + do 3 f_equal. unfold range. rewrite map_map.
      apply map_ext. intros j. now rewrite Nat2Z.id.
    + intros j bm1 Hj. apply in_range in Hj.
      rewrite <- (Z2Nat.id j), <- (Z2Nat.id i) by lia.
      set (j' := Z.to_nat j). set (i' := Z.to_nat i).
      assert (Hj' : j' < Z.to_nat S) by lia.
      assert (Hi' : i' + 1 < n) by lia.
      assert (Hi0 : i' < n) by lia.
      assert (Hm : (j' + 1) mod Z.to_nat S < Z.to_nat S)
        by (apply Nat.mod_upper_bound; lia).
      rewrite py_mod_nat by lia. cbn [bind].
      rewrite (py_index_nat _ _ (ring_table_nth (Z.to_nat S) Hi0)).
      cbn [bind].
      rewrite (py_index_nat _ _ (ring_nth (i' * Z.to_nat S) Hj')). cbn [bind].
      rewrite (py_index_nat _ _ (ring_nth (i' * Z.to_nat S) Hm)). cbn [bind].
      replace (Z.of_nat i' + 1)%Z with (Z.of_nat (i' + 1)) by lia.
      rewrite (py_index_nat _ _ (ring_table_nth (Z.to_nat S) Hi')). cbn [bind].
      rewrite (py_index_nat _ _ (ring_nth ((i' + 1) * Z.to_nat S) Hm)). cbn [bind].
      rewrite (py_index_nat _ _ (ring_nth ((i' + 1) * Z.to_nat S) Hj')). cbn [bind].
      rewrite !Nat2Z.id. reflexivity.
Qed.

Lemma bottom_fan_loop_ok (S : Z) (n : nat) (bottom_pole : vert) (bm : bmesh T) :
  1 <= n ->
  for_each (range S)
    (fun (j : Z) (bm5 : bmesh T) =>
       j_next <- py_mod (j + 1) S;;
       ring_0 <- py_index (ring_table (Z.to_nat S) n) 0;;
       a <- py_index ring_0 j_next;;
       b <- py_index ring_0 j;; Ok (faces_new bm5 [bottom_pole; a; b]))
    bm
  = Ok (BMesh (bm_verts bm)
              (bm_faces bm ++ bottom_fan (Z.to_nat S) bottom_pole)).
Proof.
  intros Hn.
  rewrite (for_each_faces
             (fun j => [bottom_pole;
                        ring_vert (Z.to_nat S) 0 ((Z.to_nat j + 1) mod Z.to_nat S);
                        ring_vert (Z.to_nat S) 0 (Z.to_nat j)])).
  - do 3 f_equal. unfold bottom_fan, range. rewrite map_map.
    apply map_ext. intros j. now rewrite Nat2Z.id.
  - intros j bm1 Hj. apply in_range in Hj.
    rewrite <- (Z2Nat.id j) by lia.
    set (j' := Z.to_nat j).
    assert (Hj' : j' < Z.to_nat S) by lia.
    assert (Hm : (j' + 1) mod Z.to_nat S < Z.to_nat S)
      by (apply Nat.mod_upper_bound; lia).
    assert (H0 : 0 < n) by lia.
    rewrite py_mod_nat by lia. cbn [bind].
    change (py_index (ring_table (Z.to_nat S) n) 0)
      with (py_index (ring_table (Z.to_nat S) n) (Z.of_nat 0)).
    rewrite (py_index_nat _ 0 (ring_table_nth (Z.to_nat S) H0)). cbn [bind].
    rewrite (py_index_nat _ _ (ring_nth (0 * Z.to_nat S) Hm)). cbn [bind].
    rewrite (py_index_nat _ _ (ring_nth (0 * Z.to_nat S) Hj')). cbn [bind].
    rewrite !Nat2Z.id. reflexivity.
Qed.

Lemma top_ring_ok (s n : nat) :
  1 <= n ->
  py_index (ring_table s n) (-1) = Ok (seq ((n - 1) * s) s).
Proof.
  intros Hn. replace n with ((n - 1) + 1) at 1 by lia.
  rewrite ring_table_app. cbn [seq map].
  replace ((n - 1) * s + 0 * s) with ((n - 1) * s) by lia.
  apply py_index_last.
Qed.

Lemma top_fan_loop_ok (S : Z) (k : nat) (top_pole : vert) (bm : bmesh T) :
  for_each (range S)
    (fun (j : Z) (bm6 : bmesh T) =>
       j_next <- py_mod (j + 1) S;;
       a <- py_index (seq (k * Z.to_nat S) (Z.to_nat S)) j;;
       b <- py_index (seq (k * Z.to_nat S) (Z.to_nat S)) j_next;;
       Ok (faces_new bm6 [top_pole; a; b]))
    bm
  = Ok (BMesh (bm_verts bm)
              (bm_faces bm ++ top_fan (Z.to_nat S) k top_pole)).
Proof.
  rewrite (for_each_faces
             (fun j => [top_pole;
                        ring_vert (Z.to_nat S) k (Z.to_nat j);
                        ring_vert (Z.to_nat S) k ((Z.to_nat j + 1) mod Z.to_nat S)])).
  - do 3 f_equal. unfold top_fan, range. rewrite map_map.
    apply map_ext. intros j. now rewrite Nat2Z.id.
  - intros j bm1 Hj. apply in_range in Hj.
    rewrite <- (Z2Nat.id j) by lia.
    set (j' := Z.to_nat j).
    assert (Hj' : j' < Z.to_nat S) by lia.
    assert (Hm : (j' + 1) mod Z.to_nat S < Z.to_nat S)
      by (apply Nat.mod_upper_bound; lia).
    rewrite py_mod_nat by lia. cbn [bind].
    rewrite (py_index_nat _ _ (ring_nth (k * Z.to_nat S) Hj')). cbn [bind].
    rewrite (py_index_nat _ _ (ring_nth (k * Z.to_nat S) Hm)). cbn [bind].
    rewrite !Nat2Z.id. reflexivity.
Qed.
End FaceLoops.

Section CapsuleClosedForm.
Context {T : Type} `{Trig T}.
Local Open Scope float_scope.

Lemma rings_loop_ok' (g : T -> T * T) (S d : Z) (ixs : list Z) :
  (ixs <> [] -> d <> 0%Z) ->
  forall (bm : bmesh T) (vbr : list (list vert)),
    for_each ixs
      (fun i '(bm, verts_by_ring) =>
         q <- py_truediv i d ;;
         '(bm, ring_verts) <- ring_loop (fst (g q)) (snd (g q)) S bm ;;
         Ok (bm, verts_by_ring ++ [ring_verts]))
      (bm, vbr)
    = Ok (BMesh (bm_verts bm
                 ++ concat (map (fun i => ring_points
                                            (fst (g (of_Z i / of_Z d)))
                                            (snd (g (of_Z i / of_Z d))) S) ixs))
                (bm_faces bm),
          vbr ++ map (fun k => seq (length (bm_verts bm) + k * Z.to_nat S)
                                   (Z.to_nat S))
                     (seq 0 (length ixs))).
Proof.
  intros Hd bm vbr. destruct ixs as [|i ixs].
  - cbn. rewrite !app_nil_r. now destruct bm.
  - apply rings_loop_ok. apply Hd. discriminate.
Qed.

Lemma create_capsule_ok (radius half_length : T) (S H' C : Z) :
  H' <> 0%Z -> (1 <= C \/ 1 <= H')%Z ->
  create_capsule radius half_length S H' C
  = Ok (BMesh (capsule_verts radius half_length S H' C)
              (capsule_faces (Z.to_nat S) (ring_count H' C))).
Proof.
  intros HH HR. unfold create_capsule. cbv zeta.
  pose proof (@rings_loop_ok'
                (fun q => (radius * t_cos (t_pi / of_Z 2 * q),
                           - half_length - radius * t_sin (t_pi / of_Z 2 * q)))
                S C (range_down C 0)) as E1.
  pose proof (@rings_loop_ok'
                (fun q => (radius, - half_length + of_Z 2 * half_length * q))
                S H' (range (H' + 1))) as E2.
  pose proof (@rings_loop_ok'
                (fun q => (radius * t_cos (t_pi / of_Z 2 * q),
                           half_length + radius * t_sin (t_pi / of_Z 2 * q)))
                S C (range_from 1 (C + 1))) as E3.
  cbn [fst snd] in E1, E2, E3.
  rewrite E1 by (intros Hne ->; now apply Hne). cbn [bind].
  rewrite E2 by (intros _; exact HH). cbn [bind].
  rewrite E3 by (intros Hne ->; now apply Hne). cbn [bind].
  clear E1 E2 E3.
  cbn [verts_new bm_verts bm_faces bmesh_new app].
  match goal with
  | |- context [py_index ?v (-1)] =>
      assert (Hvbr : v = ring_table (Z.to_nat S) (ring_count H' C))
  end.
  { unfold ring_count. rewrite !ring_table_app.
    rewrite !length_app, range_down_length, range_length, range_from_length.
    rewrite !(@concat_rings_length _ _ _ (Z.to_nat S))
      by (intros; apply ring_points_length).
    rewrite range_down_length, range_length.
    replace (C - 0)%Z with C by lia. replace (C + 1 - 1)%Z with C by lia.
    unfold ring_table. cbn [length Nat.add].
    apply f_equal2; [apply f_equal2; [reflexivity|] |];
      apply map_ext; intros k; f_equal; lia. }
  rewrite Hvbr. clear Hvbr.
  assert (Hn : 1 <= ring_count H' C) by (unfold ring_count; lia).
  rewrite quad_loop_ok. cbn [bind].
  rewrite bottom_fan_loop_ok by assumption. cbn [bind].
  rewrite top_ring_ok by assumption. cbn [bind].
  rewrite top_fan_loop_ok. cbn [bind bm_verts bm_faces app].
  f_equal. apply f_equal2.
  - unfold capsule_verts, capsule_profile, bottom_pole_co, top_pole_co.
    rewrite !map_app, !concat_app, !map_map.
    unfold bottom_profile, body_profile, top_profile. cbn [fst snd].
    rewrite <- !app_assoc. reflexivity.
  - unfold capsule_faces. rewrite <- !app_assoc.
    rewrite !length_app, !(@concat_rings_length _ _ _ (Z.to_nat S))
      by (intros; apply ring_points_length).
    rewrite range_down_length, range_length, range_from_length.
    cbn [length]. unfold ring_count.
    replace (C - 0)%Z with C by lia. replace (C + 1 - 1)%Z with C by lia.
    apply f_equal. apply f_equal2; f_equal; lia.
Qed.

(** With [segments_height = 0] the first body ring divides by zero. *)
Lemma create_capsule_zero_height (radius half_length : T) (S C : Z) :
  create_capsule radius half_length S 0 C = Raise ZeroDivisionError.
Proof.
  unfold create_capsule. cbv zeta.
  pose proof (@rings_loop_ok'
                (fun q => (radius * t_cos (t_pi / of_Z 2 * q),
                           - half_length - radius * t_sin (t_pi / of_Z 2 * q)))
                S C (range_down C 0)) as E1.
  cbn [fst snd] in E1.
  rewrite E1 by (intros Hne ->; now apply Hne). cbn [bind].
  reflexivity.
Qed.

(** With no ring at all, indexing [verts_by_ring] fails. *)
Lemma create_capsule_no_ring (radius half_length : T) (S H' C : Z) :
  (H' < 0)%Z -> (C <= 0)%Z ->
  create_capsule radius half_length S H' C = Raise IndexError.
Proof.
  intros HH HC. unfold create_capsule. cbv zeta.
  unfold range_down, range_from. rewrite (range_nonpos (n := H' + 1)) by lia.
  replace (Z.to_nat (C - 0)) with 0 by lia.
  replace (Z.to_nat (C + 1 - 1)) with 0 by lia.
  cbn [seq map for_each bind verts_new bmesh_new bm_verts bm_faces app length].
  change (len (@nil (list nat)) - 1)%Z with (-1)%Z.
  rewrite (range_nonpos (n := -1)) by lia. cbn [for_each bind].
  destruct (Z.le_gt_cases S 0) as [HS|HS].
  - rewrite (range_nonpos HS). cbn [for_each bind].
    now rewrite py_index_nil.
  - unfold range. destruct (Z.to_nat S) as [|s] eqn:Es; [lia|].
    cbn [seq map for_each].
    change (Z.of_nat 0 + 1)%Z with 1%Z.
    unfold py_mod. destruct (Z.eqb_spec S 0); [lia|]. cbn [bind].
    now rewrite py_index_nil.
Qed.

(** [create_capsule] returns exactly when [segments_height] is not zero
    and there is at least one ring. *)
Lemma create_capsule_inv (radius half_length : T) (S H' C : Z) (bm : bmesh T) :
  create_capsule radius half_length S H' C = Ok bm ->
  (H' <> 0 /\ (1 <= C \/ 1 <= H'))%Z
  /\ bm = BMesh (capsule_verts radius half_length S H' C)
                (capsule_faces (Z.to_nat S) (ring_count H' C)).
Proof.
  intros Hok.
  destruct (Z.eq_dec H' 0) as [->|HH].
  { rewrite create_capsule_zero_height in Hok. discriminate. }
  destruct (Z_lt_le_dec C 1) as [HC|HC], (Z_lt_le_dec H' 1) as [HH'|HH'];
    try (rewrite create_capsule_ok in Hok by lia; injection Hok as <-;
         split; [lia | reflexivity]).
  rewrite create_capsule_no_ring in Hok by lia. discriminate.
Qed.
End CapsuleClosedForm.

(** ** Vertex and face counts of a capsule *)

Lemma capsule_profile_length {T : Type} `{Trig T} (radius half_length : T)
      (H' C : Z) :
  length (capsule_profile radius half_length H' C) = ring_count H' C.
Proof.
  unfold capsule_profile, ring_count.
  rewrite !length_app, !length_map.
  rewrite range_down_length, range_length, range_from_length. lia.
Qed.

Lemma capsule_verts_length {T : Type} `{Trig T} (radius half_length : T)
      (S H' C : Z) :
  length (capsule_verts radius half_length S H' C)
  = ring_count H' C * Z.to_nat S + 2.
Proof.
  unfold capsule_verts. rewrite length_app.
  rewrite (@concat_rings_length _ _ _ (Z.to_nat S))
    by (intros; apply ring_points_length).
  now rewrite capsule_profile_length.
Qed.

Lemma stitched_quads_length (s n : nat) :
  length (stitched_quads s n) = (n - 1) * s.
Proof.
  unfold stitched_quads. rewrite flat_map_concat_map.
  rewrite (@concat_rings_length _ _ _ s), length_seq; [reflexivity|].
  intros k. now rewrite length_map, length_seq.
Qed.

Lemma bottom_fan_length (s p : nat) : length (bottom_fan s p) = s.
Proof. unfold bottom_fan. now rewrite length_map, length_seq. Qed.

Lemma top_fan_length (s k p : nat) : length (top_fan s k p) = s.
Proof. unfold top_fan. now rewrite length_map, length_seq. Qed.

(** C1: for segment counts [S >= 0], [H >= 1], [C >= 0] (which covers the
    defaults 12/6/6 and the script's 16/8/6 and 10/4/4), [create_capsule]
    returns a mesh with exactly [S * (2*C + H + 1) + 2] vertices. *)
Theorem capsule_vertex_count {T : Type} `{Trig T} (radius half_length : T)
        (S H' C : Z) :
  (0 <= S)%Z -> (1 <= H')%Z -> (0 <= C)%Z ->
  exists bm : bmesh T,
    create_capsule radius half_length S H' C = Ok bm
    /\ len (bm_verts bm) = (S * (2 * C + H' + 1) + 2)%Z.
Proof.
  intros HS HH HC. eexists. split.
  - apply create_capsule_ok; lia.
  - cbn [bm_verts]. unfold len. rewrite capsule_verts_length.
    unfold ring_count.
    rewrite Nat2Z.inj_add, Nat2Z.inj_mul, !Nat2Z.inj_add, !Z2Nat.id by lia.
    cbn [Z.of_nat Pos.of_succ_nat Pos.succ]. ring.
Qed.

Lemma capsule_vertex_count_witness :
  exists bm : bmesh R,
    create_capsule_default 1%R 1%R = Ok bm
    /\ len (bm_verts bm) = (12 * (2 * 6 + 6 + 1) + 2)%Z.
Proof.
  apply (capsule_vertex_count (T := R) 1%R 1%R (S := 12) (H' := 6) (C := 6)); lia.
Defined.

(** ** What the vertex handles denote *)

Lemma nth_error_concat_rings {A B : Type} (f : A -> list B) (s : nat)
      (l : list A) (k j : nat) (a : A) :
  (forall x, length (f x) = s) ->
  nth_error l k = Some a -> j < s ->
  nth_error (concat (map f l)) (k * s + j) = nth_error (f a) j.
Proof.
  intros Hf. revert k. induction l as [|x l IH]; intros k Hk Hj.
  - destruct k; discriminate.
  - cbn [map concat]. destruct k as [|k]; cbn [nth_error] in Hk.
    + injection Hk as ->. cbn [Nat.mul Nat.add].
      apply nth_error_app1. now rewrite Hf.
    + rewrite nth_error_app2 by (rewrite Hf; lia).
      rewrite Hf. replace (S k * s + j - s) with (k * s + j) by lia.
      now apply IH.
Qed.

Lemma range_nth (n : Z) (j : nat) :
  j < Z.to_nat n -> nth_error (range n) j = Some (Z.of_nat j).
Proof.
  intros Hj. unfold range. rewrite nth_error_map, nth_error_seq.
  destruct (Nat.ltb_spec j (Z.to_nat n)); [reflexivity | lia].
Qed.

Lemma ring_points_nth {T : Type} `{Trig T} (rr ry : T) (S : Z) (j : nat) :
  j < Z.to_nat S ->
  nth_error (ring_points rr ry S) j = Some (ring_point rr ry S (Z.of_nat j)).
Proof.
  intros Hj. unfold ring_points. now rewrite nth_error_map, range_nth.
Qed.

Lemma capsule_verts_ring {T : Type} `{Trig T} (radius half_length : T)
      (S H' C : Z) (k j : nat) :
  k < ring_count H' C -> j < Z.to_nat S ->
  exists p : T * T,
    nth_error (capsule_profile radius half_length H' C) k = Some p
    /\ nth_error (capsule_verts radius half_length S H' C)
                 (ring_vert (Z.to_nat S) k j)
       = Some (ring_point (fst p) (snd p) S (Z.of_nat j)).
Proof.
  intros Hk Hj.
  destruct (nth_error (capsule_profile radius half_length H' C) k) as [p|] eqn:Ep.
  2:{ apply nth_error_None in Ep. rewrite capsule_profile_length in Ep. lia. }
  exists p. split; [reflexivity|].
  unfold capsule_verts, ring_vert.
  rewrite nth_error_app1.
  - rewrite (@nth_error_concat_rings _ _ _ (Z.to_nat S) _ k j p)
      by first [exact Ep | exact Hj | intros; apply ring_points_length].
    now apply ring_points_nth.
  - rewrite (@concat_rings_length _ _ _ (Z.to_nat S))
      by (intros; apply ring_points_length).
    rewrite capsule_profile_length. nia.
Qed.

Lemma capsule_verts_poles {T : Type} `{Trig T} (radius half_length : T)
      (S H' C : Z) :
  nth_error (capsule_verts radius half_length S H' C)
            (ring_count H' C * Z.to_nat S)
  = Some (bottom_pole_co radius half_length)
  /\ nth_error (capsule_verts radius half_length S H' C)
               (ring_count H' C * Z.to_nat S + 1)
     = Some (top_pole_co radius half_length).
Proof.
  unfold capsule_verts.
  assert (L : length (concat (map (fun p => ring_points (fst p) (snd p) S)
                                  (capsule_profile radius half_length H' C)))
              = ring_count H' C * Z.to_nat S).
  { rewrite (@concat_rings_length _ _ _ (Z.to_nat S))
      by (intros; apply ring_points_length).
    now rewrite capsule_profile_length. }
  split; rewrite nth_error_app2 by lia; rewrite L.
  - now rewrite Nat.sub_diag.
  - now replace (ring_count H' C * Z.to_nat S + 1 - ring_count H' C * Z.to_nat S)
      with 1 by lia.
Qed.

(** C4: the faces of a generated capsule are the quads stitched between
    consecutive rings (one per angular step, [(2*C + H) * S] in all),
    followed by the fan of [S] triangles from the bottom pole to the first
    ring and the fan of [S] triangles from the top pole to the last ring,
    and nothing else; the handles in these faces denote the ring vertices
    and the two poles. *)
Theorem capsule_faces_stitched {T : Type} `{Trig T} (radius half_length : T)
        (S H' C : Z) :
  (0 <= S)%Z -> (1 <= H')%Z -> (0 <= C)%Z ->
  exists bm : bmesh T,
    create_capsule radius half_length S H' C = Ok bm
    /\ let s := Z.to_nat S in
       let n := Z.to_nat (2 * C + H' + 1) in
       let bottom_pole := n * s in
       let top_pole := n * s + 1 in
       bm_faces bm
       = stitched_quads s n ++ bottom_fan s bottom_pole
                            ++ top_fan s (n - 1) top_pole
       /\ len (stitched_quads s n) = ((2 * C + H') * S)%Z
       /\ len (bottom_fan s bottom_pole) = S
       /\ len (top_fan s (n - 1) top_pole) = S
       /\ nth_error (bm_verts bm) bottom_pole
          = Some (bottom_pole_co radius half_length)
       /\ nth_error (bm_verts bm) top_pole
          = Some (top_pole_co radius half_length)
       /\ forall k j : nat,
            k < n -> j < s ->
            exists p : T * T,
              nth_error (capsule_profile radius half_length H' C) k = Some p
              /\ nth_error (bm_verts bm) (ring_vert s k j)
                 = Some (ring_point (fst p) (snd p) S (Z.of_nat j)).
Proof.
  intros HS HH HC. eexists. split; [apply create_capsule_ok; lia|].
  cbv zeta. cbn [bm_faces bm_verts].
  assert (Hn : Z.to_nat (2 * C + H' + 1) = ring_count H' C)
    by (unfold ring_count; lia).
  rewrite Hn. unfold len.
  rewrite stitched_quads_length, bottom_fan_length, top_fan_length.
  repeat split.
  - rewrite Nat2Z.inj_mul, Z2Nat.id by lia. f_equal. unfold ring_count. lia.
  - lia.
  - lia.
  - apply capsule_verts_poles.
  - apply capsule_verts_poles.
  - intros k j Hk Hj. now apply capsule_verts_ring.
Qed.

Lemma capsule_faces_stitched_witness :
  exists bm : bmesh R,
    create_limb (1 / 10)%R (1 / 5)%R = Ok bm
    /\ bm_faces bm
       = stitched_quads 10 13 ++ bottom_fan 10 130 ++ top_fan 10 12 131
    /\ len (stitched_quads 10 13) = 120%Z.
Proof.
  destruct (capsule_faces_stitched (T := R) (1 / 10)%R (1 / 5)%R
              (S := 10) (H' := 4) (C := 4)) as (bm & Hbm & Hf & Hq & _);
    [lia | lia | lia |].
  exists bm. repeat split; assumption.
Defined.

(** The calls of [create_capsule] made by the script always return. *)
Lemma script_capsules_return {T : Type} `{Trig T} (radius half_length : T) :
  (exists bm, torso_capsule (T := T) = Ok bm)
  /\ (exists bm, create_limb radius half_length = Ok bm)
  /\ (exists bm, create_capsule_default radius half_length = Ok bm).
Proof.
  unfold torso_capsule, create_limb, create_capsule_default.
  repeat split; eexists; apply create_capsule_ok; lia.
Qed.

(** ** Where the vertices of a capsule come from *)

Lemma in_capsule_profile {T : Type} `{Trig T} (radius half_length : T)
      (H' C : Z) (p : T * T) :
  In p (capsule_profile radius half_length H' C) ->
  (exists i, (1 <= i <= C)%Z /\ p = bottom_profile radius half_length C i)
  \/ (exists i, (0 <= i <= H')%Z /\ p = body_profile radius half_length H' i)
  \/ (exists i, (1 <= i <= C)%Z /\ p = top_profile radius half_length C i).
Proof.
  unfold capsule_profile. rewrite !in_app_iff, !in_map_iff.
  intros [(i & <- & Hi) | [(i & <- & Hi) | (i & <- & Hi)]].
  - left. exists i. split; [now apply in_range_down | reflexivity].
  - right; left. exists i. apply in_range in Hi. split; [lia | reflexivity].
  - right; right. exists i. split; [now apply in_range_from | reflexivity].
Qed.

Lemma in_capsule_verts {T : Type} `{Trig T} (radius half_length : T)
      (S H' C : Z) (v : vec3 T) :
  In v (capsule_verts radius half_length S H' C) ->
  (exists p j, In p (capsule_profile radius half_length H' C)
               /\ (0 <= j < S)%Z
               /\ v = ring_point (fst p) (snd p) S j)
  \/ v = bottom_pole_co radius half_length
  \/ v = top_pole_co radius half_length.
Proof.
  unfold capsule_verts. rewrite in_app_iff, in_concat.
  intros [(ring & Hring & Hv) | [<- | [<- | []]]]; [left | now right; left | now right; right].
  apply in_map_iff in Hring as (p & <- & Hp).
  unfold ring_points in Hv. apply in_map_iff in Hv as (j & <- & Hj).
  exists p, j. repeat split; try assumption; now apply in_range in Hj.
Qed.

(** ** Real-number facts about the cap profile *)

Section CapProfile.
Local Open Scope R_scope.

Lemma Rabs_le_bounds (y h : R) : Rabs y <= h -> - h <= y <= h.
Proof. unfold Rabs. destruct (Rcase_abs y); lra. Qed.

Lemma quotient_in_unit (i d : Z) :
  (0 <= i <= d)%Z -> d <> 0%Z -> 0 <= IZR i / IZR d <= 1.
Proof.
  intros Hi Hd.
  assert (Hd' : 0 < IZR d) by (apply IZR_lt; lia).
  assert (Hi0 : 0 <= IZR i) by (apply IZR_le; lia).
  assert (Hid : IZR i <= IZR d) by (apply IZR_le; lia).
  pose proof (Rinv_0_lt_compat _ Hd') as Hinv.
  assert (Hone : IZR d * / IZR d = 1) by (apply Rinv_r; lra).
  unfold Rdiv. split; nra.
Qed.

Lemma quotient_pos (i d : Z) : (1 <= i <= d)%Z -> 0 < IZR i / IZR d.
Proof.
  intros Hi. apply Rdiv_lt_0_compat; apply IZR_lt; lia.
Qed.

Lemma circle_point (rr theta : R) :
  (rr * cos theta) * (rr * cos theta) + (rr * sin theta) * (rr * sin theta)
  = rr * rr.
Proof.
  pose proof (sin2_cos2 theta) as E. unfold Rsqr in E. nra.
Qed.

Lemma cap_angle_trig (q : R) :
  0 <= q <= 1 ->
  0 <= sin (PI / 2 * q) <= 1
  /\ 0 <= cos (PI / 2 * q)
  /\ sin (PI / 2 * q) * sin (PI / 2 * q) + cos (PI / 2 * q) * cos (PI / 2 * q) = 1.
Proof.
  intros Hq. pose proof PI_RGT_0 as Hpi.
  assert (Ha : 0 <= PI / 2 * q <= PI / 2) by (split; nra).
  repeat split.
  - apply sin_ge_0; lra.
  - apply SIN_bound.
  - apply cos_ge_0; lra.
  - pose proof (sin2_cos2 (PI / 2 * q)) as E. unfold Rsqr in E. exact E.
Qed.

(** A point at depth [d] below the lower cap centre, on a circle whose
    radius [rr] satisfies [rr^2 + d^2 = radius^2]. *)
Lemma on_surface_lower (radius half_length x z d : R) :
  0 <= half_length -> 0 <= d ->
  x * x + z * z + d * d = radius * radius ->
  on_capsule_surface radius half_length (x, - half_length - d, z).
Proof.
  intros Hh Hd E. unfold on_capsule_surface. repeat split.
  - intros Hy. apply Rabs_le_bounds in Hy. assert (d = 0) by lra. subst d. lra.
  - intros Hy. lra.
  - intros _. replace (- half_length - d + half_length) with (- d) by ring. nra.
Qed.

Lemma on_surface_upper (radius half_length x z d : R) :
  0 <= half_length -> 0 <= d ->
  x * x + z * z + d * d = radius * radius ->
  on_capsule_surface radius half_length (x, half_length + d, z).
Proof.
  intros Hh Hd E. unfold on_capsule_surface. repeat split.
  - intros Hy. apply Rabs_le_bounds in Hy. assert (d = 0) by lra. subst d. lra.
  - intros _. replace (half_length + d - half_length) with d by ring. nra.
  - intros Hy. lra.
Qed.

Lemma on_surface_wall (radius half_length x y z : R) :
  - half_length <= y <= half_length ->
  x * x + z * z = radius * radius ->
  on_capsule_surface radius half_length (x, y, z).
Proof.
  intros Hy E. unfold on_capsule_surface. repeat split; intros; lra.
Qed.
End CapProfile.

(** ** Every vertex lies on the capsule surface *)

(** Unfold the float interface at its real-number instance. *)
Ltac real_ops :=
  cbn [fst snd mul add sub div neg of_Z t_cos t_sin t_pi R_Arith R_Trig] in *.

Section OnSurface.
Local Open Scope R_scope.

Lemma cap_ring_radius (radius q theta : R) :
  0 <= q <= 1 ->
  let a := PI / 2 * q in
  (radius * cos a * cos theta) * (radius * cos a * cos theta)
  + (radius * cos a * sin theta) * (radius * cos a * sin theta)
  + (radius * sin a) * (radius * sin a)
  = radius * radius.
Proof.
  intros Hq a. rewrite circle_point.
  destruct (cap_angle_trig Hq) as (_ & _ & E). fold a in E.
  replace (radius * cos a * (radius * cos a) + radius * sin a * (radius * sin a))
    with (radius * radius * (sin a * sin a + cos a * cos a)) by ring.
  rewrite E. ring.
Qed.

Lemma capsule_vert_on_surface (radius half_length : R) (S H' C : Z)
      (v : vec3 R) :
  0 <= radius -> 0 <= half_length -> H' <> 0%Z ->
  In v (capsule_verts radius half_length S H' C) ->
  on_capsule_surface radius half_length v
  /\ - (half_length + radius) <= y_of v <= half_length + radius.
Proof.
  intros Hr Hh HH Hv.
  apply in_capsule_verts in Hv as [(p & j & Hp & Hj & ->) | [-> | ->]].
  - apply in_capsule_profile in Hp
      as [(i & Hi & ->) | [(i & Hi & ->) | (i & Hi & ->)]].
    + assert (Hq : 0 <= IZR i / IZR C <= 1) by (apply quotient_in_unit; lia).
      destruct (cap_angle_trig Hq) as (Hs & Hc & _).
      unfold ring_point, bottom_profile, y_of. real_ops.
      split.
      * apply on_surface_lower; [assumption | nra |].
        now apply cap_ring_radius.
      * nra.
    + assert (Hq : 0 <= IZR i / IZR H' <= 1) by (apply quotient_in_unit; lia).
      unfold ring_point, body_profile, y_of. real_ops.
      split.
      * apply on_surface_wall; [nra | apply circle_point].
      * nra.
    + assert (Hq : 0 <= IZR i / IZR C <= 1) by (apply quotient_in_unit; lia).
      destruct (cap_angle_trig Hq) as (Hs & Hc & _).
      unfold ring_point, top_profile, y_of. real_ops.
      split.
      * apply on_surface_upper; [assumption | nra |].
        now apply cap_ring_radius.
      * nra.
  - unfold bottom_pole_co, y_of. real_ops. split.
    + apply on_surface_lower; [assumption | assumption | ring].
    + lra.
  - unfold top_pole_co, y_of. real_ops. split.
    + apply on_surface_upper; [assumption | assumption | ring].
    + lra.
Qed.
End OnSurface.

Section CapsuleSurface.
Local Open Scope R_scope.

Lemma poles_in_capsule_verts {T : Type} `{Trig T} (radius half_length : T)
      (S H' C : Z) :
  In (bottom_pole_co radius half_length)
     (capsule_verts radius half_length S H' C)
  /\ In (top_pole_co radius half_length)
        (capsule_verts radius half_length S H' C).
Proof.
  unfold capsule_verts. split; apply in_or_app; right; cbn; auto.
Qed.

(** C5: in exact arithmetic, with [radius >= 0] and [half_length >= 0],
    every vertex of a generated capsule lies on the capsule surface (on the
    cylinder wall where [|y| <= half_length], on the hemisphere centred at
    [(0, +/-half_length, 0)] beyond), the extreme Y coordinates are
    [+/-(half_length + radius)] and so the height is
    [2 * half_length + 2 * radius]; a capsule is generated whenever
    [segments_height >= 1]. *)
Theorem capsule_vertices_on_surface (radius half_length : R) (S H' C : Z) :
  0 <= radius -> 0 <= half_length ->
  ((1 <= H')%Z ->
   exists bm : bmesh R, create_capsule radius half_length S H' C = Ok bm)
  /\ forall bm : bmesh R,
       create_capsule radius half_length S H' C = Ok bm ->
       (forall v, In v (bm_verts bm) -> on_capsule_surface radius half_length v)
       /\ is_max_y (bm_verts bm) (half_length + radius)
       /\ is_min_y (bm_verts bm) (- (half_length + radius))
       /\ (half_length + radius) - (- (half_length + radius))
          = 2 * half_length + 2 * radius.
Proof.
  intros Hr Hh. split.
  - intros HH. eexists. apply create_capsule_ok; lia.
  - intros bm Hbm. apply create_capsule_inv in Hbm as ((HH & _) & ->).
    cbn [bm_verts].
    destruct (poles_in_capsule_verts radius half_length S H' C) as (Hb & Ht).
    assert (Hall : forall v,
               In v (capsule_verts radius half_length S H' C) ->
               on_capsule_surface radius half_length v
               /\ - (half_length + radius) <= y_of v <= half_length + radius)
      by (intros v Hv; eapply capsule_vert_on_surface; eassumption).
    split; [|split; [|split]].
    + intros v Hv. now apply Hall.
    + split.
      * exists (top_pole_co radius half_length).
        split; [assumption | reflexivity].
      * intros v Hv. now apply Hall.
    + split.
      * exists (bottom_pole_co radius half_length). split; [assumption|].
        unfold bottom_pole_co, y_of. real_ops. ring.
      * intros v Hv. now apply Hall.
    + ring.
Qed.

Lemma capsule_vertices_on_surface_witness :
  exists bm : bmesh R,
    torso_capsule = Ok bm
    /\ (forall v, In v (bm_verts bm) ->
                  on_capsule_surface TORSO_RADIUS (TORSO_HEIGHT / 2) v)
    /\ is_max_y (bm_verts bm) (TORSO_HEIGHT / 2 + TORSO_RADIUS)
    /\ is_min_y (bm_verts bm) (- (TORSO_HEIGHT / 2 + TORSO_RADIUS)).
Proof.
  assert (Hr : 0 <= TORSO_RADIUS)
    by (unfold TORSO_RADIUS, lit; real_ops; lra).
  assert (Hh : 0 <= TORSO_HEIGHT / 2)
    by (unfold TORSO_HEIGHT, lit; real_ops; lra).
  destruct (capsule_vertices_on_surface 16 8 6 Hr Hh) as (Hex & Hall).
  destruct Hex as (bm & Hbm); [lia|].
  exists bm. split; [exact Hbm|].
  destruct (Hall bm Hbm) as (H1 & H2 & H3 & _). auto.
Defined.
End CapsuleSurface.

(** ** The cap rings at angle [pi / 2] collapse onto the poles *)

Lemma range_down_cons (a : Z) :
  (1 <= a)%Z -> range_down a 0 = a :: range_down (a - 1) 0.
Proof.
  intros Ha. unfold range_down.
  replace (Z.to_nat (a - 0)) with (S (Z.to_nat (a - 1 - 0))) by lia.
  cbn [seq map]. f_equal; [lia|].
  rewrite <- seq_shift, map_map. apply map_ext. intros k. lia.
Qed.

Lemma range_from_snoc (a : Z) :
  (1 <= a)%Z -> range_from 1 (a + 1) = range_from 1 a ++ [a].
Proof.
  intros Ha. unfold range_from.
  replace (Z.to_nat (a + 1 - 1)) with (S (Z.to_nat (a - 1))) by lia.
  rewrite seq_S, map_app. cbn [map Nat.add]. do 2 f_equal. lia.
Qed.

Lemma capsule_profile_first {T : Type} `{Trig T} (radius half_length : T)
      (H' C : Z) :
  (1 <= C)%Z ->
  capsule_profile radius half_length H' C
  = bottom_profile radius half_length C C
    :: (map (bottom_profile radius half_length C) (range_down (C - 1) 0)
        ++ map (body_profile radius half_length H') (range (H' + 1))
        ++ map (top_profile radius half_length C) (range_from 1 (C + 1))).
Proof.
  intros HC. unfold capsule_profile. now rewrite range_down_cons by assumption.
Qed.

Lemma capsule_profile_last {T : Type} `{Trig T} (radius half_length : T)
      (H' C : Z) :
  (1 <= C)%Z ->
  capsule_profile radius half_length H' C
  = (map (bottom_profile radius half_length C) (range_down C 0)
     ++ map (body_profile radius half_length H') (range (H' + 1))
     ++ map (top_profile radius half_length C) (range_from 1 C))
    ++ [top_profile radius half_length C C].
Proof.
  intros HC. unfold capsule_profile.
  rewrite range_from_snoc by assumption.
  rewrite map_app. cbn [map]. now rewrite <- !app_assoc.
Qed.

Section PoleRings.
Local Open Scope R_scope.

Lemma unit_quotient (C : Z) : (1 <= C)%Z -> IZR C / IZR C = 1.
Proof.
  intros HC. assert (0 < IZR C) by (apply IZR_lt; lia). field. lra.
Qed.

(** Ring radius [radius * cos (pi / 2) = 0]: every vertex of the first
    bottom-cap ring is at the bottom pole. *)
Lemma bottom_ring_at_pole (radius half_length : R) (S C j : Z) :
  (1 <= C)%Z ->
  ring_point (fst (bottom_profile radius half_length C C))
             (snd (bottom_profile radius half_length C C)) S j
  = bottom_pole_co radius half_length.
Proof.
  intros HC. unfold ring_point, bottom_profile, bottom_pole_co. real_ops.
  rewrite unit_quotient by assumption.
  rewrite Rmult_1_r, cos_PI2, sin_PI2.
  f_equal; [f_equal|]; ring.
Qed.

Lemma top_ring_at_pole (radius half_length : R) (S C j : Z) :
  (1 <= C)%Z ->
  ring_point (fst (top_profile radius half_length C C))
             (snd (top_profile radius half_length C C)) S j
  = top_pole_co radius half_length.
Proof.
  intros HC. unfold ring_point, top_profile, top_pole_co. real_ops.
  rewrite unit_quotient by assumption.
  rewrite Rmult_1_r, cos_PI2, sin_PI2.
  f_equal; [f_equal|]; ring.
Qed.

Lemma triangle_area_degenerate (p : vec3 R) : triangle_area p p p = 0.
Proof.
  destruct p as [[x y] z]. unfold triangle_area, norm, cross, vsub.
  replace ((y - y) * (z - z) - (z - z) * (y - y)) with 0 by ring.
  replace ((z - z) * (x - x) - (x - x) * (z - z)) with 0 by ring.
  replace ((x - x) * (y - y) - (y - y) * (x - x)) with 0 by ring.
  replace (0 * 0 + 0 * 0 + 0 * 0) with 0 by ring.
  rewrite sqrt_0. lra.
Qed.

Lemma count_at_app (p : vec3 R) (l1 l2 : list (vec3 R)) :
  count_at p (l1 ++ l2) = (count_at p l1 + count_at p l2)%nat.
Proof. apply count_occ_app. Qed.

Lemma count_at_all (p : vec3 R) (l : list (vec3 R)) :
  (forall v, In v l -> v = p) -> count_at p l = length l.
Proof.
  unfold count_at. induction l as [|v l IH]; intros Hall; [reflexivity|].
  rewrite count_occ_cons_eq by (apply Hall; now left).
  cbn [length]. f_equal. apply IH. intros w Hw. apply Hall. now right.
Qed.

Lemma count_at_none (p : vec3 R) (l : list (vec3 R)) :
  (forall v, In v l -> y_of v <> y_of p) -> count_at p l = 0%nat.
Proof.
  intros Hne. unfold count_at. apply count_occ_not_In.
  intros Hin. now apply (Hne p Hin).
Qed.

Lemma sin_cap_lt_1 (i C : Z) :
  (1 <= i <= C - 1)%Z ->
  0 <= sin (PI / 2 * (IZR i / IZR C)) < 1.
Proof.
  intros Hi. pose proof PI_RGT_0 as Hpi.
  assert (HC : 0 < IZR C) by (apply IZR_lt; lia).
  assert (Hi0 : 0 < IZR i) by (apply IZR_lt; lia).
  assert (HiC : IZR i < IZR C) by (apply IZR_lt; lia).
  pose proof (Rinv_0_lt_compat _ HC) as Hinv.
  assert (Hone : IZR C * / IZR C = 1) by (apply Rinv_r; lra).
  assert (Hq : 0 < IZR i / IZR C < 1) by (unfold Rdiv; split; nra).
  split.
  - apply sin_ge_0; nra.
  - rewrite <- sin_PI2. apply sin_increasing_1; nra.
Qed.

(** Above the first ring, no ring vertex is as low as the bottom pole. *)
Lemma ring_above_bottom_pole (radius half_length : R) (S H' C : Z)
      (p : R * R) (v : vec3 R) :
  0 < radius -> 0 <= half_length -> H' <> 0%Z ->
  In p (map (bottom_profile radius half_length C) (range_down (C - 1) 0)
        ++ map (body_profile radius half_length H') (range (H' + 1))
        ++ map (top_profile radius half_length C) (range_from 1 (C + 1))) ->
  In v (ring_points (fst p) (snd p) S) ->
  y_of v <> y_of (bottom_pole_co radius half_length).
Proof.
  intros Hr Hh HH Hp Hv.
  unfold ring_points in Hv. apply in_map_iff in Hv as (j & <- & _).
  unfold ring_point, bottom_pole_co, y_of. cbn [fst snd].
  rewrite !in_app_iff, !in_map_iff in Hp.
  destruct Hp as [(i & <- & Hi) | [(i & <- & Hi) | (i & <- & Hi)]].
  - apply in_range_down in Hi.
    pose proof (@sin_cap_lt_1 i C Hi) as Hs.
    unfold bottom_profile. real_ops. nra.
  - apply in_range in Hi.
    assert (Hq : 0 <= IZR i / IZR H' <= 1) by (apply quotient_in_unit; lia).
    unfold body_profile. real_ops. nra.
  - apply in_range_from in Hi.
    assert (Hq : 0 <= IZR i / IZR C <= 1) by (apply quotient_in_unit; lia).
    destruct (cap_angle_trig Hq) as (Hs & _).
    unfold top_profile. real_ops. nra.
Qed.

(** Below the last ring, no ring vertex is as high as the top pole. *)
Lemma ring_below_top_pole (radius half_length : R) (S H' C : Z)
      (p : R * R) (v : vec3 R) :
  0 < radius -> 0 <= half_length -> H' <> 0%Z ->
  In p (map (bottom_profile radius half_length C) (range_down C 0)
        ++ map (body_profile radius half_length H') (range (H' + 1))
        ++ map (top_profile radius half_length C) (range_from 1 C)) ->
  In v (ring_points (fst p) (snd p) S) ->
  y_of v <> y_of (top_pole_co radius half_length).
Proof.
  intros Hr Hh HH Hp Hv.
  unfold ring_points in Hv. apply in_map_iff in Hv as (j & <- & _).
  unfold ring_point, top_pole_co, y_of. cbn [fst snd].
  rewrite !in_app_iff, !in_map_iff in Hp.
  destruct Hp as [(i & <- & Hi) | [(i & <- & Hi) | (i & <- & Hi)]].
  - apply in_range_down in Hi.
    assert (Hq : 0 <= IZR i / IZR C <= 1) by (apply quotient_in_unit; lia).
    destruct (cap_angle_trig Hq) as (Hs & _).
    unfold bottom_profile. real_ops. nra.
  - apply in_range in Hi.
    assert (Hq : 0 <= IZR i / IZR H' <= 1) by (apply quotient_in_unit; lia).
    unfold body_profile. real_ops. nra.
  - replace C with ((C - 1) + 1)%Z in Hi at 1 by lia.
    apply in_range_from in Hi.
    pose proof (@sin_cap_lt_1 i C Hi) as Hs.
    unfold top_profile. real_ops. nra.
Qed.
End PoleRings.

Section PoleCount.
Local Open Scope R_scope.

Lemma poles_distinct (radius half_length : R) :
  0 < radius -> 0 <= half_length ->
  top_pole_co radius half_length <> bottom_pole_co radius half_length.
Proof.
  intros Hr Hh E. apply (f_equal y_of) in E.
  unfold top_pole_co, bottom_pole_co, y_of in E. real_ops. lra.
Qed.

Lemma count_bottom_pole (radius half_length : R) (S H' C : Z) :
  0 < radius -> 0 <= half_length -> H' <> 0%Z -> (1 <= C)%Z ->
  count_at (bottom_pole_co radius half_length)
           (capsule_verts radius half_length S H' C)
  = (Z.to_nat S + 1)%nat.
Proof.
  intros Hr Hh HH HC. unfold capsule_verts.
  rewrite capsule_profile_first by assumption. cbn [map concat].
  rewrite !count_at_app. f_equal; [|].
  - rewrite count_at_all.
    + rewrite (@count_at_none _ (concat _)).
      * rewrite ring_points_length. lia.
      * intros v Hv. apply in_concat in Hv as (ring & Hring & Hv).
        apply in_map_iff in Hring as (p & <- & Hp).
        eapply ring_above_bottom_pole; eassumption.
    + intros v Hv. unfold ring_points in Hv.
      apply in_map_iff in Hv as (j & <- & _).
      now apply bottom_ring_at_pole.
  - unfold count_at.
    rewrite count_occ_cons_eq by reflexivity.
    rewrite count_occ_cons_neq by now apply poles_distinct.
    reflexivity.
Qed.

Lemma count_top_pole (radius half_length : R) (S H' C : Z) :
  0 < radius -> 0 <= half_length -> H' <> 0%Z -> (1 <= C)%Z ->
  count_at (top_pole_co radius half_length)
           (capsule_verts radius half_length S H' C)
  = (Z.to_nat S + 1)%nat.
Proof.
  intros Hr Hh HH HC. unfold capsule_verts.
  rewrite capsule_profile_last by assumption.
  rewrite map_app, concat_app. cbn [map concat]. rewrite app_nil_r.
  rewrite !count_at_app. f_equal; [|].
  - rewrite (@count_at_none _ (concat _)).
    + rewrite count_at_all.
      * rewrite ring_points_length. lia.
      * intros v Hv. unfold ring_points in Hv.
        apply in_map_iff in Hv as (j & <- & _).
        now apply top_ring_at_pole.
    + intros v Hv. apply in_concat in Hv as (ring & Hring & Hv).
      apply in_map_iff in Hring as (p & <- & Hp).
      eapply ring_below_top_pole; eassumption.
  - unfold count_at.
    rewrite count_occ_cons_neq
      by (intros E; symmetry in E; revert E; now apply poles_distinct).
    rewrite count_occ_cons_eq by reflexivity.
    reflexivity.
Qed.
End PoleCount.

Section PoleFans.
Local Open Scope R_scope.

Lemma first_ring_at_pole (radius half_length : R) (S H' C : Z) (j : nat) :
  (1 <= C)%Z -> (j < Z.to_nat S)%nat ->
  nth_error (capsule_verts radius half_length S H' C)
            (ring_vert (Z.to_nat S) 0 j)
  = Some (bottom_pole_co radius half_length).
Proof.
  intros HC Hj.
  destruct (@capsule_verts_ring R _ _ radius half_length S H' C 0 j)
    as (p & Hp & Hv); [unfold ring_count; lia | assumption |].
  rewrite capsule_profile_first in Hp by assumption.
  cbn [nth_error] in Hp. injection Hp as <-.
  rewrite Hv. f_equal. now apply bottom_ring_at_pole.
Qed.

Lemma last_ring_at_pole (radius half_length : R) (S H' C : Z) (j : nat) :
  (1 <= C)%Z -> (j < Z.to_nat S)%nat ->
  nth_error (capsule_verts radius half_length S H' C)
            (ring_vert (Z.to_nat S) (ring_count H' C - 1) j)
  = Some (top_pole_co radius half_length).
Proof.
  intros HC Hj.
  destruct (@capsule_verts_ring R _ _ radius half_length S H' C
              (ring_count H' C - 1) j)
    as (p & Hp & Hv); [unfold ring_count; lia | assumption |].
  pose proof (capsule_profile_length radius half_length H' C) as Hlen.
  rewrite capsule_profile_last in Hp, Hlen by assumption.
  rewrite length_app in Hlen. cbn [length] in Hlen.
  rewrite nth_error_app2 in Hp by lia.
  replace (ring_count H' C - 1 - _)%nat with 0%nat in Hp by lia.
  cbn [nth_error] in Hp. injection Hp as <-.
  rewrite Hv. f_equal. now apply top_ring_at_pole.
Qed.

Lemma face_area_at_point (vs : list (vec3 R)) (ia ib ic : nat) (p : vec3 R) :
  nth_error vs ia = Some p -> nth_error vs ib = Some p ->
  nth_error vs ic = Some p ->
  face_area vs [ia; ib; ic] = Some 0.
Proof.
  intros Ha Hb Hc. unfold face_area. rewrite Ha, Hb, Hc.
  now rewrite triangle_area_degenerate.
Qed.

(** C8: in exact arithmetic the first bottom-cap ring and the last top-cap
    ring (angle [pi / 2], ring radius [radius * cos (pi / 2) = 0]) consist
    of [S] vertices located at the bottom and top pole respectively; every
    triangle of the two pole fans has area zero; and for a capsule with
    [radius > 0] and [half_length >= 0] each pole position carries exactly
    [S + 1] vertices. *)
Theorem pole_rings_degenerate (radius half_length : R) (S H' C : Z) :
  (0 <= S)%Z -> (1 <= H')%Z -> (1 <= C)%Z ->
  exists bm : bmesh R,
    create_capsule radius half_length S H' C = Ok bm
    /\ let s := Z.to_nat S in
       let n := ring_count H' C in
       let bottom_pole := (n * s)%nat in
       let top_pole := (n * s + 1)%nat in
       (forall j : nat, (j < s)%nat ->
          nth_error (bm_verts bm) (ring_vert s 0 j)
          = Some (bottom_pole_co radius half_length)
          /\ nth_error (bm_verts bm) (ring_vert s (n - 1) j)
             = Some (top_pole_co radius half_length))
       /\ nth_error (bm_verts bm) bottom_pole
          = Some (bottom_pole_co radius half_length)
       /\ nth_error (bm_verts bm) top_pole
          = Some (top_pole_co radius half_length)
       /\ (forall f, In f (bottom_fan s bottom_pole ++ top_fan s (n - 1) top_pole) ->
             In f (bm_faces bm) /\ face_area (bm_verts bm) f = Some 0)
       /\ (0 < radius -> 0 <= half_length ->
           count_at (bottom_pole_co radius half_length) (bm_verts bm)
           = (s + 1)%nat
           /\ count_at (top_pole_co radius half_length) (bm_verts bm)
              = (s + 1)%nat).
Proof.
  intros HS HH HC. eexists. split; [apply create_capsule_ok; lia|].
  cbv zeta. cbn [bm_verts bm_faces].
  destruct (capsule_verts_poles radius half_length S H' C) as (Hb & Ht).
  assert (Hmod : forall j, (j < Z.to_nat S)%nat ->
                           ((j + 1) mod Z.to_nat S < Z.to_nat S)%nat)
    by (intros j Hj; apply Nat.mod_upper_bound; lia).
  split; [|split; [|split; [|split]]].
  - intros j Hj. split;
      [now apply first_ring_at_pole | now apply last_ring_at_pole].
  - exact Hb.
  - exact Ht.
  - intros f Hf. split.
    + unfold capsule_faces. apply in_or_app. now right.
    + apply in_app_or in Hf as [Hf | Hf].
      * unfold bottom_fan in Hf. apply in_map_iff in Hf as (j & <- & Hj).
        apply in_seq in Hj.
        apply face_area_at_point with (p := bottom_pole_co radius half_length);
          [exact Hb | |]; apply first_ring_at_pole;
          first [assumption | apply Hmod; lia | lia].
      * unfold top_fan in Hf. apply in_map_iff in Hf as (j & <- & Hj).
        apply in_seq in Hj.
        apply face_area_at_point with (p := top_pole_co radius half_length);
          [exact Ht | |]; apply last_ring_at_pole;
          first [assumption | apply Hmod; lia | lia].
  - intros Hr Hh. split;
      [apply count_bottom_pole | apply count_top_pole]; first [assumption | lia].
Qed.

Lemma pole_rings_degenerate_witness :
  exists bm : bmesh R,
    create_limb (1 / 10)%R (1 / 5)%R = Ok bm
    /\ nth_error (bm_verts bm) (ring_vert 10 0 3)
       = Some (bottom_pole_co (1 / 10) (1 / 5))
    /\ count_at (bottom_pole_co (1 / 10) (1 / 5)) (bm_verts bm) = 11%nat.
Proof.
  destruct (pole_rings_degenerate (1 / 10) (1 / 5) (S := 10) (H' := 4) (C := 4))
    as (bm & Hbm & Hring & _ & _ & _ & Hcount); [lia | lia | lia |].
  exists bm. split; [exact Hbm|]. split.
  - apply (Hring 3%nat). cbn. lia.
  - apply Hcount; lra.
Defined.
End PoleFans.

(** ** The armature *)

Section ArmatureFacts.
Context {T : Type} `{Arith T}.
Local Open Scope string_scope.
Local Open Scope list_scope.
Local Open Scope float_scope.

(** The bone table, in creation order. *)
Lemma create_armature_bones :
  create_armature (T := T)
  = [ mkEditBone "torso" (of_Z 0, of_Z 0, of_Z 0)
                 (of_Z 0, TORSO_HEIGHT * lit 5 10, of_Z 0) None false;
      mkEditBone "head" (of_Z 0, TORSO_HEIGHT * lit 5 10, of_Z 0)
                 (of_Z 0, TORSO_HEIGHT * lit 5 10 + HEAD_RADIUS * of_Z 2, of_Z 0)
                 (Some 0%nat) true;
      mkEditBone "l_upperArm" (- SHOULDER_X, SHOULDER_Y, of_Z 0)
                 (- (SHOULDER_X + UPPER_ARM_LENGTH), SHOULDER_Y, of_Z 0)
                 (Some 0%nat) false;
      mkEditBone "l_foreArm"
                 (- (SHOULDER_X + UPPER_ARM_LENGTH), SHOULDER_Y, of_Z 0)
                 (- (SHOULDER_X + UPPER_ARM_LENGTH + FOREARM_LENGTH), SHOULDER_Y,
                  of_Z 0)
                 (Some 2%nat) true;
      mkEditBone "r_upperArm" (SHOULDER_X, SHOULDER_Y, of_Z 0)
                 (SHOULDER_X + UPPER_ARM_LENGTH, SHOULDER_Y, of_Z 0)
                 (Some 0%nat) false;
      mkEditBone "r_foreArm"
                 (SHOULDER_X + UPPER_ARM_LENGTH, SHOULDER_Y, of_Z 0)
                 (SHOULDER_X + UPPER_ARM_LENGTH + FOREARM_LENGTH, SHOULDER_Y,
                  of_Z 0)
                 (Some 4%nat) true;
      mkEditBone "l_thigh" (- HIP_X, HIP_Y, of_Z 0)
                 (- HIP_X, HIP_Y - THIGH_LENGTH, of_Z 0) (Some 0%nat) false;
      mkEditBone "l_shin" (- HIP_X, HIP_Y - THIGH_LENGTH, of_Z 0)
                 (- HIP_X, HIP_Y - THIGH_LENGTH - SHIN_LENGTH, of_Z 0)
                 (Some 6%nat) true;
      mkEditBone "r_thigh" (HIP_X, HIP_Y, of_Z 0)
                 (HIP_X, HIP_Y - THIGH_LENGTH, of_Z 0) (Some 0%nat) false;
      mkEditBone "r_shin" (HIP_X, HIP_Y - THIGH_LENGTH, of_Z 0)
                 (HIP_X, HIP_Y - THIGH_LENGTH - SHIN_LENGTH, of_Z 0)
                 (Some 8%nat) true ].
Proof. vm_compute. reflexivity. Qed.

Lemma create_armature_hierarchy :
  hierarchy (create_armature (T := T))
  = [("torso", None);
     ("head", Some "torso");
     ("l_upperArm", Some "torso");
     ("l_foreArm", Some "l_upperArm");
     ("r_upperArm", Some "torso");
     ("r_foreArm", Some "r_upperArm");
     ("l_thigh", Some "torso");
     ("l_shin", Some "l_thigh");
     ("r_thigh", Some "torso");
     ("r_shin", Some "r_thigh")].
Proof. rewrite create_armature_bones. reflexivity. Qed.

(** C2 (amended): the armature has exactly ten bones: one root, [torso],
    without parent, and nine descendants with the parent relationships of
    the docstring: head, l_upperArm, r_upperArm, l_thigh and r_thigh are
    children of torso, l_foreArm of l_upperArm, r_foreArm of r_upperArm,
    l_shin of l_thigh and r_shin of r_thigh. *)
Theorem armature_ten_bones :
  length (create_armature (T := T)) = 10
  /\ root_names (create_armature (T := T)) = ["torso"]
  /\ descendant_names (create_armature (T := T)) 0
     = ["head"; "l_upperArm"; "l_foreArm"; "r_upperArm"; "r_foreArm";
        "l_thigh"; "l_shin"; "r_thigh"; "r_shin"]
  /\ hierarchy (create_armature (T := T))
     = [("torso", None);
        ("head", Some "torso");
        ("l_upperArm", Some "torso");
        ("l_foreArm", Some "l_upperArm");
        ("r_upperArm", Some "torso");
        ("r_foreArm", Some "r_upperArm");
        ("l_thigh", Some "torso");
        ("l_shin", Some "l_thigh");
        ("r_thigh", Some "torso");
        ("r_shin", Some "r_thigh")].
Proof.
  split; [|split; [|split]].
  - now rewrite create_armature_bones.
  - now rewrite create_armature_bones.
  - now rewrite create_armature_bones.
  - exact create_armature_hierarchy.
Qed.

(** C9: the bones created with [use_connect = True] are head, l_foreArm,
    r_foreArm, l_shin and r_shin, and the head position of each of them is
    exactly the tail position of its parent bone. *)
Theorem connected_bones_contiguous :
  map bone_name (connected_bones (create_armature (T := T)))
  = ["head"; "l_foreArm"; "r_foreArm"; "l_shin"; "r_shin"]
  /\ forall b : EditBone T,
       In b (connected_bones create_armature) ->
       exists (p : nat) (pb : EditBone T),
         bone_parent b = Some p
         /\ nth_error create_armature p = Some pb
         /\ bone_head b = bone_tail pb.
Proof.
  rewrite create_armature_bones. split; [reflexivity|].
  intros b Hb. cbn [connected_bones filter bone_use_connect] in Hb.
  destruct Hb as [<- | [<- | [<- | [<- | [<- | []]]]]];
    eexists; eexists; (split; [reflexivity|]); (split; [reflexivity|]);
    reflexivity.
Qed.
End ArmatureFacts.

(** C2 as stated (nine bones, eight descendants) does not hold: the
    armature has ten bones, nine of them below torso. *)
Lemma armature_not_nine_bones :
  ~ (length (create_armature (T := R)) = 9%nat
     /\ length (descendant_names (create_armature (T := R)) 0) = 8%nat).
Proof.
  intros [Hlen _]. rewrite create_armature_bones in Hlen. discriminate Hlen.
Qed.

(** ** The output path *)

Section PathFacts.
Local Open Scope char_scope.

Lemma split_sep_nonempty (s : path) : split_sep s <> [].
Proof.
  destruct s as [|c s]; cbn [split_sep]; [discriminate|].
  destruct (Ascii.eqb c sep); [discriminate|].
  destruct (split_sep s); discriminate.
Qed.

Lemma split_sep_app (a b : path) :
  split_sep (a ++ sep :: b) = split_sep a ++ split_sep b.
Proof.
  induction a as [|c a IH]; cbn [app split_sep].
  - now rewrite Ascii.eqb_refl.
  - destruct (Ascii.eqb c sep); [now rewrite IH|].
    rewrite IH. pose proof (split_sep_nonempty a) as Hne.
    destruct (split_sep a); [contradiction | reflexivity].
Qed.

Lemma join_sep_cons (c : path) (rest : list path) :
  rest <> [] -> join_sep (c :: rest) = c ++ sep :: join_sep rest.
Proof. destruct rest; [contradiction | reflexivity]. Qed.

Lemma join_sep_app (l1 l2 : list path) :
  l2 <> [] -> ends_with (join_sep (l1 ++ l2)) (join_sep l2).
Proof.
  intros Hne. induction l1 as [|c l1 (pre & IH)].
  - now exists [].
  - cbn [app]. rewrite join_sep_cons by (destruct l1, l2; easy).
    exists (c ++ sep :: pre). rewrite IH.
    now rewrite <- app_assoc, <- app_comm_cons.
Qed.

Lemma endswith_sep (a : path) :
  endswith a [sep] = true -> exists a', a = a' ++ [sep].
Proof.
  unfold endswith. cbn [rev app].
  destruct (rev a) as [|c r] eqn:E; cbn [startswith]; [discriminate|].
  intros Hc. apply andb_prop in Hc as [Hc _]. apply Ascii.eqb_eq in Hc. subst c.
  exists (rev r). rewrite <- (rev_involutive a), E. reflexivity.
Qed.

Lemma split_output_path : split_sep OUTPUT_PATH = output_comps.
Proof. vm_compute. reflexivity. Qed.

Lemma join_output_comps : join_sep output_comps = OUTPUT_PATH.
Proof. vm_compute. reflexivity. Qed.

(** None of the components of [OUTPUT_PATH] is empty, [.] or [..], so the
    loop of [normpath] appends them. *)
Lemma normpath_keeps_output (k : nat) (st : list path) :
  fold_left (normpath_step k) output_comps st = st ++ output_comps.
Proof.
  unfold output_comps. cbn [fold_left].
  unfold normpath_step.
  repeat match goal with
         | |- context [str_eqb (str ?a) (str ?b)] =>
             let v := eval vm_compute in (str_eqb (str a) (str b)) in
             change (str_eqb (str a) (str b)) with v
         end.
  cbn [orb negb]. now rewrite <- !app_assoc.
Qed.

Lemma normpath_output_suffix (p : path) (comps0 : list path) :
  is_empty p = false ->
  split_sep p = comps0 ++ output_comps ->
  ends_with (normpath p) OUTPUT_PATH.
Proof.
  intros Hp Hsplit. unfold normpath. rewrite Hp, Hsplit.
  cbv zeta. rewrite fold_left_app, normpath_keeps_output.
  set (k := if startswith p [sep] then _ else 0).
  set (st := fold_left (normpath_step k) comps0 []).
  destruct (@join_sep_app st output_comps) as (q & Hq); [discriminate|].
  rewrite Hq, join_output_comps.
  assert (Hne : is_empty (repeat sep k ++ q ++ OUTPUT_PATH) = false).
  { destruct (repeat sep k ++ q ++ OUTPUT_PATH) eqn:E; [|reflexivity].
    apply app_eq_nil in E as (_ & E). apply app_eq_nil in E as (_ & E).
    discriminate E. }
  rewrite Hne. exists (repeat sep k ++ q). now rewrite <- app_assoc.
Qed.

(** [join(a, OUTPUT_PATH)] is [OUTPUT_PATH] itself or [a'/OUTPUT_PATH]. *)
Lemma join_output_path (a : path) :
  join a OUTPUT_PATH = OUTPUT_PATH
  \/ exists a', join a OUTPUT_PATH = a' ++ sep :: OUTPUT_PATH.
Proof.
  unfold join.
  change (startswith OUTPUT_PATH [sep]) with false. cbv iota.
  destruct a as [|c a]; [now left|]. right. cbn [is_empty orb].
  destruct (endswith (c :: a) [sep]) eqn:E.
  - apply endswith_sep in E as (a' & ->). exists a'.
    now rewrite <- app_assoc.
  - now exists (c :: a).
Qed.

Lemma abspath_output_path (e : Env) :
  ends_with (abspath e OUTPUT_PATH) OUTPUT_PATH.
Proof.
  unfold abspath. change (isabs OUTPUT_PATH) with false. cbv iota.
  destruct (join_output_path (getcwd e)) as [-> | (a' & ->)].
  - apply (@normpath_output_suffix _ []); [reflexivity|].
    apply split_output_path.
  - apply (@normpath_output_suffix _ (split_sep a')).
    + now destruct a'.
    + now rewrite split_sep_app, split_output_path.
Qed.

(** C6: whichever branch [main] takes, the path handed to [export_glb]
    ends with [apps/client/public/models/bean_character.glb]. *)
Theorem output_path_suffix (e : Env) :
  ends_with (main_output_path e) OUTPUT_PATH
  /\ OUTPUT_PATH = str "apps/client/public/models/bean_character.glb".
Proof.
  split; [|reflexivity].
  unfold main_output_path.
  destruct (isdir e (str "apps/client/public")).
  - apply abspath_output_path.
  - cbv zeta.
    destruct (join_output_path (dirname (dirname (abspath e (script_file e)))))
      as [-> | (a' & ->)].
    + now exists [].
    + exists (a' ++ [sep]). now rewrite <- app_assoc.
Qed.
End PathFacts.

(** ** The export request *)

Section SceneFacts.
Local Open Scope string_scope.
Local Open Scope list_scope.

Lemma clear_scene_empty (objs : list Scene.Object) :
  Scene.clear_scene (Scene.start objs) = Scene.mkState [] None [].
Proof.
  unfold Scene.clear_scene, Scene.select_all, Scene.object_delete, Scene.start,
    Scene.with_objects.
  cbn [Scene.objects Scene.active Scene.exports]. f_equal.
  induction objs as [|o objs IH]; [reflexivity|].
  cbn [map filter Scene.set_selected Scene.obj_selected negb]. exact IH.
Qed.

Lemma main_exports (e : Env) (objs : list Scene.Object) :
  Scene.exports (Scene.main e (Scene.start objs))
  = [Scene.mkExportCall (main_output_path e) "GLB" true true false true true
       "EXPORT" false true
       [Scene.mkObject 1 "BeanCharacter" Scene.MeshObj true ["BeanMaterial"]
                       ["Armature"; "Subdivision"] (Some 2);
        Scene.mkObject 2 "BeanArmature" Scene.ArmatureObj true [] [] None]].
Proof.
  unfold Scene.main. rewrite clear_scene_empty.
  generalize (main_output_path e). intros p.
  vm_compute. reflexivity.
Qed.

(** C7: a run of [main] issues exactly one export request; at that moment
    exactly the mesh object (BeanCharacter) and the armature object
    (BeanArmature) are selected; the request asks for the GLB format, the
    selection only, no animations, skins and materials; the mesh carries
    exactly one material slot, BeanMaterial, and the file path is the one
    computed by [main]. *)
Theorem export_requested_once (e : Env) (objs : list Scene.Object) :
  exists call : Scene.ExportCall,
    Scene.exports (Scene.main e (Scene.start objs)) = [call]
    /\ map Scene.summary (Scene.selection call)
       = [("BeanCharacter", Scene.MeshObj, ["BeanMaterial"]);
          ("BeanArmature", Scene.ArmatureObj, [])]
    /\ Scene.export_format call = "GLB"
    /\ Scene.use_selection call = true
    /\ Scene.export_animations call = false
    /\ Scene.export_skins call = true
    /\ Scene.export_materials call = "EXPORT"
    /\ Scene.filepath call = main_output_path e.
Proof.
  rewrite main_exports. eexists. split; [reflexivity|].
  repeat split.
Qed.
End SceneFacts.

(** ** Running the embedding on small inputs *)

Section Examples.
Local Open Scope string_scope.
Local Open Scope list_scope.

Example tiny_capsule_faces :
  capsule_faces_of (create_capsule (SVar "radius") (SVar "half_length") 3 1 1)
  = Ok [[0; 1; 4; 3];
        [1; 2; 5; 4];
        [2; 0; 3; 5];
        [3; 4; 7; 6];
        [4; 5; 8; 7];
        [5; 3; 6; 8];
        [6; 7; 10; 9];
        [7; 8; 11; 10];
        [8; 6; 9; 11];
        [12; 1; 0];
        [12; 2; 1];
        [12; 0; 2];
        [13; 9; 10];
        [13; 10; 11];
        [13; 11; 9]].
Proof. vm_compute. reflexivity. Qed.

Example default_capsule_vertex_count :
  capsule_vertex_count_of
    (create_capsule_default (SVar "radius") (SVar "half_length"))
  = Ok 230%Z.
Proof. vm_compute. reflexivity. Qed.

Example torso_capsule_vertex_count :
  capsule_vertex_count_of (torso_capsule (T := Sym)) = Ok 338%Z.
Proof. vm_compute. reflexivity. Qed.

Example limb_vertex_count :
  capsule_vertex_count_of
    (create_limb (SVar "radius") (SVar "half_length"))
  = Ok 132%Z.
Proof. vm_compute. reflexivity. Qed.

Example zero_height_raises :
  capsule_vertex_count_of
    (create_capsule (SVar "radius") (SVar "half_length") 3 0 1)
  = Raise ZeroDivisionError.
Proof. vm_compute. reflexivity. Qed.

Example output_path_from_project_root :
  main_output_path
    (mkEnv (fun _ => true) (str "/home/dev/ruckus") (str "scripts/generate_bean.py"))
  = str "/home/dev/ruckus/apps/client/public/models/bean_character.glb".
Proof. vm_compute. reflexivity. Qed.

Example output_path_from_elsewhere :
  main_output_path
    (mkEnv (fun _ => false) (str "/tmp")
           (str "/home/dev/ruckus/scripts/generate_bean.py"))
  = str "/home/dev/ruckus/apps/client/public/models/bean_character.glb".
Proof. vm_compute. reflexivity. Qed.
End Examples.

(* ================================================================== *)
(** * Part III: further properties of the code                          *)
(* ================================================================== *)

(** ** [create_capsule]: exceptions and well-formedness of the mesh *)

Section CapsuleOutcome.
Context {T : Type} `{Trig T}.

(** X1: with [segments_height = 0] the call raises [ZeroDivisionError]
    (the first body ring computes [i / rings]), whatever the other
    arguments are. *)
Theorem zero_segments_height_raises (radius half_length : T) (S C : Z) :
  create_capsule radius half_length S 0 C = Raise ZeroDivisionError.
Proof.
  unfold create_capsule. cbv zeta.
  (* the bottom cap loop runs to its end ... *)
  pose proof (@rings_loop_ok' T _ _
                (fun q => (mul radius (t_cos (mul (div t_pi (of_Z 2)) q)),
                           sub (neg half_length)
                               (mul radius (t_sin (mul (div t_pi (of_Z 2)) q)))))
                S C (range_down C 0)) as Hcap.
  cbn [fst snd] in Hcap.
  rewrite Hcap by (intros Hne ->; now apply Hne). cbn [bind].
  (* ... and the first body ring divides 0 by 0 *)
  reflexivity.
Qed.

(** X2: when no ring at all is generated ([segments_height < 0] and
    [segments_cap <= 0]) the call raises [IndexError] on [verts_by_ring]. *)
Theorem no_ring_raises_index_error (radius half_length : T) (S H' C : Z) :
  (H' < 0)%Z -> (C <= 0)%Z ->
  create_capsule radius half_length S H' C = Raise IndexError.
Proof. intros HH HC. now apply create_capsule_no_ring. Qed.


Lemma in_capsule_faces (s n : nat) (f : list nat) :
  In f (capsule_faces s n) ->
  (exists k j, k < n - 1 /\ j < s /\ f = quad s k j)
  \/ (exists j, j < s
                /\ f = [n * s; ring_vert s 0 ((j + 1) mod s); ring_vert s 0 j])
  \/ (exists j, j < s
                /\ f = [n * s + 1; ring_vert s (n - 1) j;
                        ring_vert s (n - 1) ((j + 1) mod s)]).
Proof.
  unfold capsule_faces, stitched_quads, bottom_fan, top_fan.
  rewrite !in_app_iff, in_flat_map, !in_map_iff.
  intros [(k & Hk & Hf) | [(j & <- & Hj) | (j & <- & Hj)]].
  - apply in_map_iff in Hf as (j & <- & Hj). apply in_seq in Hk, Hj.
    left. exists k, j. repeat split; lia.
  - apply in_seq in Hj. right; left. exists j. split; [lia | reflexivity].
  - apply in_seq in Hj. right; right. exists j. split; [lia | reflexivity].
Qed.

(** X4: every face of a generated capsule refers to existing vertices:
    each handle in each face is below the number of vertices. *)
Theorem face_handles_in_range (radius half_length : T) (S H' C : Z)
        (bm : bmesh T) :
  create_capsule radius half_length S H' C = Ok bm ->
  forall (f : list nat) (v : nat),
    In f (bm_faces bm) -> In v f -> v < length (bm_verts bm).
Proof.
  intros Hbm f v Hf Hv.
  apply create_capsule_inv in Hbm as ((HH & HR) & ->).
  cbn [bm_faces bm_verts] in *. rewrite capsule_verts_length.
  assert (Hn : 1 <= ring_count H' C) by (unfold ring_count; lia).
  set (n := ring_count H' C) in *. set (s := Z.to_nat S) in *.
  apply in_capsule_faces in Hf
    as [(k & j & Hk & Hj & ->) | [(j & Hj & ->) | (j & Hj & ->)]];
    assert (Hm : (j + 1) mod s < s) by (apply Nat.mod_upper_bound; lia);
    unfold quad, ring_vert in Hv; cbn [In] in Hv.
  - assert (k * s + s <= (n - 1) * s) by nia.
    assert ((n - 1) * s + s = n * s) by nia.
    destruct Hv as [<- | [<- | [<- | [<- | []]]]]; nia.
  - assert (s <= n * s) by nia.
    destruct Hv as [<- | [<- | [<- | []]]]; lia.
  - assert ((n - 1) * s + s = n * s) by nia.
    destruct Hv as [<- | [<- | [<- | []]]]; lia.
Qed.
End CapsuleOutcome.

Lemma no_ring_raises_index_error_witness :
  create_capsule (SVar "r") (SVar "h") 5 (-1) 0 = Raise IndexError.
Proof. apply no_ring_raises_index_error; lia. Defined.

Lemma face_handles_in_range_witness :
  exists bm : bmesh Sym,
    create_capsule (SVar "r") (SVar "h") 3 1 1 = Ok bm
    /\ forall f v, In f (bm_faces bm) -> In v f -> v < length (bm_verts bm).
Proof.
  eexists. split; [vm_compute; reflexivity|].
  apply (face_handles_in_range (SVar "r") (SVar "h") 3 1 1).
  vm_compute. reflexivity.
Defined.


Section CapsuleFaces.
Context {T : Type} `{Trig T}.


(** X6: with [segments_ring >= 1] a generated capsule has no loose vertex:
    every vertex belongs to at least one face. *)
Theorem every_vertex_in_a_face (radius half_length : T) (S H' C : Z)
        (bm : bmesh T) :
  (1 <= S)%Z ->
  create_capsule radius half_length S H' C = Ok bm ->
  forall v : nat,
    v < length (bm_verts bm) -> exists f, In f (bm_faces bm) /\ In v f.
Proof.
  intros HS Hbm v Hv. apply create_capsule_inv in Hbm as ((HH & HR) & ->).
  cbn [bm_faces bm_verts] in *. rewrite capsule_verts_length in Hv.
  assert (Hn : 1 <= ring_count H' C) by (unfold ring_count; lia).
  set (n := ring_count H' C) in *. set (s := Z.to_nat S) in *.
  assert (Hs : 1 <= s) by (unfold s; lia).
  unfold capsule_faces.
  destruct (Nat.lt_ge_cases v (n * s)) as [Hring | Hpole].
  - (* a ring vertex: v = k * s + j *)
    pose proof (Nat.div_mod_eq v s) as Hdm.
    assert (Hj : v mod s < s) by (apply Nat.mod_upper_bound; lia).
    set (k := v / s) in *. set (j := v mod s) in *.
    assert (Hk : k < n) by nia.
    assert (Hvk : v = ring_vert s k j) by (unfold ring_vert; lia).
    destruct (Nat.eq_dec k 0) as [Hk0 | Hk0].
    + exists [n * s; ring_vert s 0 ((j + 1) mod s); ring_vert s 0 j]. split.
      * apply in_or_app. right. apply in_or_app. left.
        unfold bottom_fan. apply in_map_iff. exists j.
        split; [reflexivity | apply in_seq; lia].
      * rewrite Hvk, Hk0. cbn [In]. auto.
    + exists (quad s (k - 1) j). split.
      * apply in_or_app. left. unfold stitched_quads. apply in_flat_map.
        exists (k - 1). split; [apply in_seq; lia|].
        apply in_map_iff. exists j. split; [reflexivity | apply in_seq; lia].
      * unfold quad. replace (k - 1 + 1) with k by lia.
        rewrite Hvk. cbn [In]. auto.
  - destruct (Nat.eq_dec v (n * s)) as [-> | Hne].
    + exists [n * s; ring_vert s 0 ((0 + 1) mod s); ring_vert s 0 0]. split.
      * apply in_or_app. right. apply in_or_app. left.
        unfold bottom_fan. apply in_map_iff. exists 0.
        split; [reflexivity | apply in_seq; lia].
      * now left.
    + assert (v = n * s + 1) by lia. subst v.
      exists [n * s + 1; ring_vert s (n - 1) 0;
              ring_vert s (n - 1) ((0 + 1) mod s)]. split.
      * apply in_or_app. right. apply in_or_app. right.
        unfold top_fan. apply in_map_iff. exists 0.
        split; [reflexivity | apply in_seq; lia].
      * now left.
Qed.
End CapsuleFaces.


Lemma every_vertex_in_a_face_witness :
  exists bm : bmesh Sym,
    create_capsule (SVar "r") (SVar "h") 3 1 1 = Ok bm
    /\ forall v, v < length (bm_verts bm) ->
                 exists f, In f (bm_faces bm) /\ In v f.
Proof.
  eexists. split; [vm_compute; reflexivity|].
  apply (@every_vertex_in_a_face _ _ _ (SVar "r") (SVar "h") 3 1 1);
    [lia | vm_compute; reflexivity].
Defined.

(** ** Symmetries of the capsule, in exact arithmetic *)

Section CapsuleMembership.
Context {T : Type} `{Trig T}.

Lemma ring_point_in_capsule (radius half_length : T) (S H' C : Z)
      (p : T * T) (j : Z) :
  In p (capsule_profile radius half_length H' C) ->
  (0 <= j < S)%Z ->
  In (ring_point (fst p) (snd p) S j) (capsule_verts radius half_length S H' C).
Proof.
  intros Hp Hj. unfold capsule_verts. apply in_or_app. left.
  apply in_concat. exists (ring_points (fst p) (snd p) S). split.
  - apply in_map_iff. now exists p.
  - unfold ring_points. apply in_map_iff. exists j.
    split; [reflexivity | now apply in_range].
Qed.

Lemma bottom_profile_in (radius half_length : T) (H' C i : Z) :
  (1 <= i <= C)%Z ->
  In (bottom_profile radius half_length C i)
     (capsule_profile radius half_length H' C).
Proof.
  intros Hi. unfold capsule_profile. apply in_or_app. left.
  apply in_map. now apply in_range_down.
Qed.

Lemma body_profile_in (radius half_length : T) (H' C i : Z) :
  (0 <= i <= H')%Z ->
  In (body_profile radius half_length H' i)
     (capsule_profile radius half_length H' C).
Proof.
  intros Hi. unfold capsule_profile. apply in_or_app. right.
  apply in_or_app. left. apply in_map. apply in_range. lia.
Qed.

Lemma top_profile_in (radius half_length : T) (H' C i : Z) :
  (1 <= i <= C)%Z ->
  In (top_profile radius half_length C i)
     (capsule_profile radius half_length H' C).
Proof.
  intros Hi. unfold capsule_profile. apply in_or_app. right.
  apply in_or_app. right. apply in_map. now apply in_range_from.
Qed.
End CapsuleMembership.

Section CapsuleSymmetry.
Local Open Scope R_scope.

Lemma cos_2PI_minus (x : R) : cos (2 * PI - x) = cos x.
Proof. rewrite cos_minus, cos_2PI, sin_2PI. ring. Qed.

Lemma sin_2PI_minus (x : R) : sin (2 * PI - x) = - sin x.
Proof. rewrite sin_minus, cos_2PI, sin_2PI. ring. Qed.

Lemma cos_PI_minus (x : R) : cos (PI - x) = - cos x.
Proof. rewrite cos_minus, cos_PI, sin_PI. ring. Qed.

Lemma cos_3PI_minus (x : R) : cos (3 * PI - x) = - cos x.
Proof.
  replace (3 * PI - x) with (2 * PI - (x - PI)) by ring.
  rewrite cos_2PI_minus, cos_minus, cos_PI, sin_PI. ring.
Qed.

Lemma sin_3PI_minus (x : R) : sin (3 * PI - x) = sin x.
Proof.
  replace (3 * PI - x) with (2 * PI - (x - PI)) by ring.
  rewrite sin_2PI_minus, sin_minus, cos_PI, sin_PI. ring.
Qed.

(** The ring vertex opposite to vertex [j] across the plane [z = 0]. *)
Lemma ring_point_mirror_z (rr ry : R) (S j : Z) :
  (0 <= j < S)%Z ->
  exists j', (0 <= j' < S)%Z
             /\ mirror_z (ring_point rr ry S j) = ring_point rr ry S j'.
Proof.
  intros Hj. assert (HS : IZR S <> 0) by (apply not_0_IZR; lia).
  destruct (Z.eq_dec j 0) as [-> | Hj0].
  - exists 0%Z. split; [lia|].
    unfold ring_point, mirror_z. real_ops.
    replace (2 * PI * 0 / IZR S) with 0 by (field; exact HS).
    rewrite sin_0. f_equal. ring.
  - exists (S - j)%Z. split; [lia|].
    unfold ring_point, mirror_z. real_ops. rewrite minus_IZR.
    replace (2 * PI * (IZR S - IZR j) / IZR S)
      with (2 * PI - 2 * PI * IZR j / IZR S) by (field; exact HS).
    rewrite cos_2PI_minus, sin_2PI_minus. f_equal. ring.
Qed.

(** The ring vertex opposite to vertex [j] across the plane [x = 0], for
    an even number of ring segments. *)
Lemma ring_point_mirror_x (rr ry : R) (S j : Z) :
  Z.even S = true -> (0 <= j < S)%Z ->
  exists j', (0 <= j' < S)%Z
             /\ mirror_x (ring_point rr ry S j) = ring_point rr ry S j'.
Proof.
  intros Heven Hj. assert (HS : IZR S <> 0) by (apply not_0_IZR; lia).
  apply Z.even_spec in Heven as (m & Hm).
  assert (HSm : IZR S = 2 * IZR m) by (rewrite Hm, mult_IZR; reflexivity).
  assert (Hm0 : IZR m <> 0) by (apply not_0_IZR; lia).
  destruct (Z_le_gt_dec j m) as [Hle | Hgt].
  - exists (m - j)%Z. split; [lia|].
    unfold ring_point, mirror_x. real_ops. rewrite minus_IZR, HSm.
    replace (2 * PI * (IZR m - IZR j) / (2 * IZR m))
      with (PI - 2 * PI * IZR j / (2 * IZR m)) by (field; exact Hm0).
    rewrite cos_PI_minus, sin_PI_x. f_equal. f_equal. ring.
  - exists (3 * m - j)%Z. split; [lia|].
    unfold ring_point, mirror_x. real_ops.
    rewrite minus_IZR, mult_IZR, HSm.
    replace (2 * PI * (3 * IZR m - IZR j) / (2 * IZR m))
      with (3 * PI - 2 * PI * IZR j / (2 * IZR m)) by (field; exact Hm0).
    rewrite cos_3PI_minus, sin_3PI_minus. f_equal. f_equal. ring.
Qed.
End CapsuleSymmetry.

Section CapsuleSymmetryTheorems.
Local Open Scope R_scope.

Lemma mirror_poles (radius half_length : R) :
  mirror_x (bottom_pole_co radius half_length) = bottom_pole_co radius half_length
  /\ mirror_x (top_pole_co radius half_length) = top_pole_co radius half_length
  /\ mirror_z (bottom_pole_co radius half_length) = bottom_pole_co radius half_length
  /\ mirror_z (top_pole_co radius half_length) = top_pole_co radius half_length
  /\ mirror_y (bottom_pole_co radius half_length) = top_pole_co radius half_length
  /\ mirror_y (top_pole_co radius half_length) = bottom_pole_co radius half_length.
Proof.
  unfold bottom_pole_co, top_pole_co, mirror_x, mirror_y, mirror_z. real_ops.
  repeat split; f_equal; try f_equal; ring.
Qed.

(** X7: the vertex set of a generated capsule is symmetric under the
    reflection [y -> -y]: the capsule is centred at the origin, as the
    docstring says. *)
Theorem capsule_symmetric_in_y (radius half_length : R) (S H' C : Z)
        (bm : bmesh R) :
  create_capsule radius half_length S H' C = Ok bm ->
  forall v, In v (bm_verts bm) -> In (mirror_y v) (bm_verts bm).
Proof.
  intros Hbm v Hv. apply create_capsule_inv in Hbm as ((HH & _) & ->).
  cbn [bm_verts] in *.
  destruct (mirror_poles radius half_length) as (_ & _ & _ & _ & Eb & Et).
  destruct (poles_in_capsule_verts radius half_length S H' C) as (Hb & Ht).
  apply in_capsule_verts in Hv as [(p & j & Hp & Hj & ->) | [-> | ->]];
    [| now rewrite Eb | now rewrite Et].
  apply in_capsule_profile in Hp
    as [(i & Hi & ->) | [(i & Hi & ->) | (i & Hi & ->)]].
  - replace (mirror_y (ring_point (fst (bottom_profile radius half_length C i))
                                  (snd (bottom_profile radius half_length C i)) S j))
      with (ring_point (fst (top_profile radius half_length C i))
                       (snd (top_profile radius half_length C i)) S j).
    + apply ring_point_in_capsule; [now apply top_profile_in | assumption].
    + unfold ring_point, mirror_y, top_profile, bottom_profile. real_ops.
      f_equal. f_equal. ring.
  - replace (mirror_y (ring_point (fst (body_profile radius half_length H' i))
                                  (snd (body_profile radius half_length H' i)) S j))
      with (ring_point (fst (body_profile radius half_length H' (H' - i)))
                       (snd (body_profile radius half_length H' (H' - i))) S j).
    + apply ring_point_in_capsule; [apply body_profile_in; lia | assumption].
    + assert (HHr : IZR H' <> 0) by (apply not_0_IZR; lia).
      unfold ring_point, mirror_y, body_profile. real_ops.
      f_equal. f_equal. rewrite minus_IZR. field. exact HHr.
  - replace (mirror_y (ring_point (fst (top_profile radius half_length C i))
                                  (snd (top_profile radius half_length C i)) S j))
      with (ring_point (fst (bottom_profile radius half_length C i))
                       (snd (bottom_profile radius half_length C i)) S j).
    + apply ring_point_in_capsule; [now apply bottom_profile_in | assumption].
    + unfold ring_point, mirror_y, top_profile, bottom_profile. real_ops.
      f_equal. f_equal. ring.
Qed.

(** X8: with an even number of ring segments (the script uses 16 and 10)
    the vertex set of a generated capsule is symmetric under the
    reflection [x -> -x]. *)
Theorem capsule_symmetric_in_x (radius half_length : R) (S H' C : Z)
        (bm : bmesh R) :
  Z.even S = true ->
  create_capsule radius half_length S H' C = Ok bm ->
  forall v, In v (bm_verts bm) -> In (mirror_x v) (bm_verts bm).
Proof.
  intros Heven Hbm v Hv. apply create_capsule_inv in Hbm as (_ & ->).
  cbn [bm_verts] in *.
  destruct (mirror_poles radius half_length) as (Eb & Et & _).
  destruct (poles_in_capsule_verts radius half_length S H' C) as (Hb & Ht).
  apply in_capsule_verts in Hv as [(p & j & Hp & Hj & ->) | [-> | ->]];
    [| now rewrite Eb | now rewrite Et].
  destruct (ring_point_mirror_x (fst p) (snd p) Heven Hj) as (j' & Hj' & ->).
  now apply ring_point_in_capsule.
Qed.

(** X9: for every number of ring segments the vertex set of a generated
    capsule is symmetric under the reflection [z -> -z]. *)
Theorem capsule_symmetric_in_z (radius half_length : R) (S H' C : Z)
        (bm : bmesh R) :
  create_capsule radius half_length S H' C = Ok bm ->
  forall v, In v (bm_verts bm) -> In (mirror_z v) (bm_verts bm).
Proof.
  intros Hbm v Hv. apply create_capsule_inv in Hbm as (_ & ->).
  cbn [bm_verts] in *.
  destruct (mirror_poles radius half_length) as (_ & _ & Eb & Et & _).
  destruct (poles_in_capsule_verts radius half_length S H' C) as (Hb & Ht).
  apply in_capsule_verts in Hv as [(p & j & Hp & Hj & ->) | [-> | ->]];
    [| now rewrite Eb | now rewrite Et].
  destruct (ring_point_mirror_z (fst p) (snd p) Hj) as (j' & Hj' & ->).
  now apply ring_point_in_capsule.
Qed.

Lemma capsule_symmetric_in_y_witness :
  exists bm : bmesh R,
    create_capsule (1 / 10) (1 / 5) 10 4 4 = Ok bm
    /\ forall v, In v (bm_verts bm) -> In (mirror_y v) (bm_verts bm).
Proof.
  eexists. split; [apply create_capsule_ok; lia|].
  apply (@capsule_symmetric_in_y (1 / 10) (1 / 5) 10 4 4).
  apply create_capsule_ok; lia.
Defined.

Lemma capsule_symmetric_in_x_witness :
  exists bm : bmesh R,
    create_capsule (1 / 10) (1 / 5) 10 4 4 = Ok bm
    /\ forall v, In v (bm_verts bm) -> In (mirror_x v) (bm_verts bm).
Proof.
  eexists. split; [apply create_capsule_ok; lia|].
  apply (@capsule_symmetric_in_x (1 / 10) (1 / 5) 10 4 4);
    [reflexivity | apply create_capsule_ok; lia].
Defined.

Lemma capsule_symmetric_in_z_witness :
  exists bm : bmesh R,
    create_capsule (1 / 10) (1 / 5) 10 4 4 = Ok bm
    /\ forall v, In v (bm_verts bm) -> In (mirror_z v) (bm_verts bm).
Proof.
  eexists. split; [apply create_capsule_ok; lia|].
  apply (@capsule_symmetric_in_z (1 / 10) (1 / 5) 10 4 4).
  apply create_capsule_ok; lia.
Defined.
End CapsuleSymmetryTheorems.

(** ** The skeleton and the placement of the limbs *)

(* Statements about [create_armature] are kept out of the inference of
   implicit arguments, which would normalise the bone table. *)
Unset Implicit Arguments.

(** Equality of two positions, component by component. *)
Ltac vec3_eq :=
  real_ops; apply f_equal2; [apply f_equal2|]; try reflexivity.

(** Unfold the configuration constants down to their decimal values. *)
Ltac config_values :=
  unfold SHOULDER_X, SHOULDER_Y, HIP_X, HIP_Y, TORSO_HEIGHT, TORSO_RADIUS,
    HEAD_RADIUS, HEAD_BLEND_FACTOR, UPPER_ARM_LENGTH, UPPER_ARM_RADIUS,
    FOREARM_LENGTH, FOREARM_RADIUS, THIGH_LENGTH, THIGH_RADIUS, SHIN_LENGTH,
    SHIN_RADIUS, lit in *;
  real_ops.


Section ArmatureTree.
Context {T : Type} `{Arith T}.
Local Open Scope string_scope.
Local Open Scope list_scope.

(** X10: the bone names are pairwise distinct and every bone with a parent
    was created after its parent, so the parent links form a tree. *)
Theorem armature_is_a_tree :
  NoDup (map bone_name (create_armature (T := T)))
  /\ forall (i : nat) (b : EditBone T) (p : nat),
       nth_error create_armature i = Some b ->
       bone_parent b = Some p -> p < i.
Proof.
  rewrite create_armature_bones. split.
  - cbn [map bone_name]. repeat constructor; cbn [In]; intuition discriminate.
  - intros i b p Hn Hp.
    do 10 (destruct i as [|i];
           [cbn [nth_error] in Hn; injection Hn as <-; cbn [bone_parent] in Hp;
            first [discriminate Hp | injection Hp as <-; lia] |]).
    destruct i; discriminate Hn.
Qed.
End ArmatureTree.

Section ArmatureGeometry.
Local Open Scope string_scope.
Local Open Scope list_scope.
Local Open Scope R_scope.

(** X11: the skeleton is mirror-symmetric about the plane [x = 0]: the
    head and tail of each [l_] bone are the reflections of those of the
    [r_] bone of the same name (and back), torso and head are their own
    reflections, and mirrored bones agree on [use_connect]. *)
Theorem skeleton_mirror_symmetric :
  forall b : EditBone R,
    In b (create_armature (T := R)) ->
    exists b' : EditBone R,
      find_bone (mirror_bone_name (bone_name b)) create_armature = Some b'
      /\ bone_head b' = mirror_x (bone_head b)
      /\ bone_tail b' = mirror_x (bone_tail b)
      /\ bone_use_connect b' = bone_use_connect b.
Proof.
  rewrite create_armature_bones. intros b Hb. cbn [In] in Hb.
  repeat (destruct Hb as [<- | Hb];
          [eexists; split; [reflexivity|];
           cbn [bone_head bone_tail bone_use_connect mirror_x];
           split; [|split; [|reflexivity]]; vec3_eq; ring |]).
  destruct Hb.
Qed.

Lemma norm_along_x (x1 x2 y z : R) :
  norm (vsub (x1, y, z) (x2, y, z)) = Rabs (x1 - x2).
Proof.
  unfold norm, vsub.
  replace ((x1 - x2) * (x1 - x2) + (y - y) * (y - y) + (z - z) * (z - z))
    with (Rsqr (x1 - x2)) by (unfold Rsqr; ring).
  apply sqrt_Rsqr_abs.
Qed.

Lemma norm_along_y (x y1 y2 z : R) :
  norm (vsub (x, y1, z) (x, y2, z)) = Rabs (y1 - y2).
Proof.
  unfold norm, vsub.
  replace ((x - x) * (x - x) + (y1 - y2) * (y1 - y2) + (z - z) * (z - z))
    with (Rsqr (y1 - y2)) by (unfold Rsqr; ring).
  apply sqrt_Rsqr_abs.
Qed.

Lemma Rabs_of_length (a l : R) : 0 <= l -> a = l \/ a = - l -> Rabs a = l.
Proof.
  intros Hl [-> | ->]; [|rewrite Rabs_Ropp]; now apply Rabs_pos_eq.
Qed.

(** X12: every bone is as long as the configuration says: half the torso
    height for torso, the head diameter for head, and the configured
    segment length for each arm and leg bone. *)
Theorem bone_lengths :
  map (fun b => (bone_name b, bone_length b)) (create_armature (T := R))
  = [("torso", TORSO_HEIGHT / 2);
     ("head", 2 * HEAD_RADIUS);
     ("l_upperArm", UPPER_ARM_LENGTH);
     ("l_foreArm", FOREARM_LENGTH);
     ("r_upperArm", UPPER_ARM_LENGTH);
     ("r_foreArm", FOREARM_LENGTH);
     ("l_thigh", THIGH_LENGTH);
     ("l_shin", SHIN_LENGTH);
     ("r_thigh", THIGH_LENGTH);
     ("r_shin", SHIN_LENGTH)].
Proof.
  rewrite create_armature_bones.
  cbn [map bone_name]. unfold bone_length. cbn [bone_head bone_tail].
  real_ops. rewrite !norm_along_x, !norm_along_y.
  repeat (apply f_equal2; [apply f_equal|]); try reflexivity;
    (apply Rabs_of_length; [config_values; lra | config_values; lra]).
Qed.
End ArmatureGeometry.

Section LimbPlacement.
Local Open Scope string_scope.
Local Open Scope list_scope.
Local Open Scope R_scope.

(** X13: every limb capsule created by [create_bean_mesh] is exactly as
    long as the bone it covers (twice its half-length is the bone length);
    the upper-arm and thigh capsules are centred on the middle of their
    bone, the forearm and shin capsules 0.02 further out along the limb. *)
Theorem limbs_follow_bones :
  forall (part bone : string) (off : vec3 R),
    In (part, bone, off) limb_bone_offsets ->
    exists (p : Placement R) (b : EditBone R),
      find_part part (limb_placements (T := R)) = Some p
      /\ find_bone bone (create_armature (T := R)) = Some b
      /\ 2 * part_half_length p = bone_length b
      /\ part_location p = vadd (bone_midpoint b) off.
Proof.
  rewrite create_armature_bones. intros part bone off Hin.
  unfold limb_bone_offsets in Hin. cbn [In] in Hin.
  repeat (destruct Hin as [Hin | Hin];
          [injection Hin as <- <- <-;
           eexists; eexists;
           split; [reflexivity|]; split; [reflexivity|];
           unfold bone_length, bone_midpoint, vadd;
           cbn [part_half_length part_location bone_head bone_tail];
           real_ops; split;
           [ first [rewrite norm_along_x | rewrite norm_along_y];
             symmetry; apply Rabs_of_length; config_values; lra
           | vec3_eq; config_values; lra ] |]).
  destruct Hin.
Qed.

(** X14: the right capsule of each limb segment is the mirror image of the
    left one: same radius and half-length, location reflected in the plane
    [x = 0], and opposite rotation about Z for the arms. *)
Theorem limb_placements_mirrored :
  forall l r : string,
    In (l, r) limb_pairs ->
    exists pl pr : Placement R,
      find_part l (limb_placements (T := R)) = Some pl
      /\ find_part r (limb_placements (T := R)) = Some pr
      /\ part_radius pl = part_radius pr
      /\ part_half_length pl = part_half_length pr
      /\ part_location pl = mirror_x (part_location pr)
      /\ part_rotation_z pl = option_map Ropp (part_rotation_z pr).
Proof.
  intros l r Hin. unfold limb_pairs in Hin. cbn [In] in Hin.
  repeat (destruct Hin as [Hin | Hin];
          [injection Hin as <- <-;
           eexists; eexists;
           split; [reflexivity|]; split; [reflexivity|];
           cbn [part_radius part_half_length part_location part_rotation_z
                mirror_x option_map];
           split; [reflexivity|]; split; [reflexivity|]; split;
           [ vec3_eq; ring
           | first [reflexivity | real_ops; apply f_equal; field] ] |]).
  destruct Hin.
Qed.
End LimbPlacement.

Section ArmatureWitnesses.
Local Open Scope string_scope.
Local Open Scope list_scope.
Local Open Scope R_scope.

Lemma skeleton_mirror_symmetric_witness :
  exists b' : EditBone R,
    find_bone "r_thigh" (create_armature (T := R)) = Some b'
    /\ bone_head b' = mirror_x (- HIP_X, HIP_Y, 0)
    /\ bone_tail b' = mirror_x (- HIP_X, HIP_Y - THIGH_LENGTH, 0)
    /\ bone_use_connect b' = false.
Proof.
  apply (skeleton_mirror_symmetric
           (mkEditBone "l_thigh" (- HIP_X, HIP_Y, 0)
                       (- HIP_X, HIP_Y - THIGH_LENGTH, 0) (Some 0%nat) false)).
  rewrite create_armature_bones. cbn [In]. do 6 right. left. reflexivity.
Defined.

Lemma limbs_follow_bones_witness :
  exists (p : Placement R) (b : EditBone R),
    find_part "Shin_L" (limb_placements (T := R)) = Some p
    /\ find_bone "l_shin" (create_armature (T := R)) = Some b
    /\ 2 * part_half_length p = bone_length b
    /\ part_location p = vadd (bone_midpoint b) (0, - (2 / 100), 0).
Proof.
  apply (limbs_follow_bones "Shin_L" "l_shin" (0, - (2 / 100), 0)).
  unfold limb_bone_offsets. cbn [In]. do 5 right. left. reflexivity.
Defined.

Lemma limb_placements_mirrored_witness :
  exists pl pr : Placement R,
    find_part "ForeArm_L" (limb_placements (T := R)) = Some pl
    /\ find_part "ForeArm_R" (limb_placements (T := R)) = Some pr
    /\ part_radius pl = part_radius pr
    /\ part_half_length pl = part_half_length pr
    /\ part_location pl = mirror_x (part_location pr)
    /\ part_rotation_z pl = option_map Ropp (part_rotation_z pr).
Proof.
  apply (limb_placements_mirrored "ForeArm_L" "ForeArm_R").
  unfold limb_pairs. cbn [In]. right. left. reflexivity.
Defined.
End ArmatureWitnesses.

(** ** The scene functions on an arbitrary scene *)

Section SceneExtras.
Local Open Scope string_scope.
Local Open Scope list_scope.

Lemma clear_scene_any (s : Scene.State) :
  Scene.clear_scene s = Scene.mkState [] None (Scene.exports s).
Proof.
  destruct s as [objs act ex].
  unfold Scene.clear_scene, Scene.select_all, Scene.object_delete,
    Scene.with_objects.
  cbn [Scene.objects Scene.active Scene.exports].
  assert (E : filter (fun o => negb (Scene.obj_selected o))
                     (map (Scene.set_selected true) objs) = []).
  { induction objs as [|o objs IH]; [reflexivity|].
    cbn [map filter Scene.set_selected Scene.obj_selected negb]. exact IH. }
  rewrite E. cbn [existsb]. now destruct act.
Qed.

Lemma main_result (e : Env) (s : Scene.State) :
  Scene.main e s
  = Scene.mkState [bean_character_object; bean_armature_object] (Some 2)
      (Scene.exports s
       ++ [glb_request (main_output_path e)
                       [bean_character_object; bean_armature_object]]).
Proof.
  unfold Scene.main. rewrite clear_scene_any.
  generalize (main_output_path e) (Scene.exports s). intros p ex.
  vm_compute. reflexivity.
Qed.

(** X15: whatever the scene holds when the script starts (objects,
    selection, active object), [main] leaves exactly two objects, the
    mesh BeanCharacter parented to the armature BeanArmature, with the
    armature active, and adds exactly one export request to those made
    before. *)
Theorem main_on_any_scene (e : Env) (s : Scene.State) :
  Scene.main e s
  = Scene.mkState [bean_character_object; bean_armature_object] (Some 2)
      (Scene.exports s
       ++ [glb_request (main_output_path e)
                       [bean_character_object; bean_armature_object]]).
Proof.
  unfold Scene.main. rewrite clear_scene_any.
  (* from the empty scene on, the run is a computation *)
  generalize (main_output_path e) (Scene.exports s). intros p ex.
  vm_compute. reflexivity.
Qed.

(** X16: running [main] again on the scene a first run left behind does
    not pile up objects: the scene holds the same two objects, and the
    second run adds its own single export request. *)
Theorem main_can_be_rerun (e1 e2 : Env) (s : Scene.State) :
  Scene.objects (Scene.main e2 (Scene.main e1 s))
  = Scene.objects (Scene.main e1 s)
  /\ Scene.exports (Scene.main e2 (Scene.main e1 s))
     = Scene.exports (Scene.main e1 s)
       ++ [glb_request (main_output_path e2)
                       [bean_character_object; bean_armature_object]].
Proof.
  rewrite (main_result e2 (Scene.main e1 s)). split; [|reflexivity].
  now rewrite main_result.
Qed.

Lemma set_selected_twice (b : bool) (o : Scene.Object) :
  Scene.set_selected true (Scene.set_selected b o) = Scene.set_selected true o.
Proof. reflexivity. Qed.

(** X17: [export_glb] exports exactly the objects it is given, whatever
    was selected before: the request lists the objects whose reference is
    [armature_obj] or [mesh_obj] and no other, and no object is created or
    removed. *)
Theorem export_glb_selects_its_arguments
        (armature_obj mesh_obj : nat) (output_path : path) (s : Scene.State) :
  Scene.exports (Scene.export_glb armature_obj mesh_obj output_path s)
  = Scene.exports s
    ++ [glb_request output_path
          (map (Scene.set_selected true)
               (filter (fun o => Nat.eqb (Scene.obj_id o) armature_obj
                                 || Nat.eqb (Scene.obj_id o) mesh_obj)
                       (Scene.objects s)))]
  /\ map Scene.obj_id
         (Scene.objects (Scene.export_glb armature_obj mesh_obj output_path s))
     = map Scene.obj_id (Scene.objects s).
Proof.
  destruct s as [objs act ex].
  unfold Scene.export_glb, Scene.export_scene_gltf, Scene.set_active,
    Scene.select_set, Scene.update_object, Scene.select_all,
    Scene.with_objects, glb_request.
  cbn [Scene.objects Scene.active Scene.exports]. split.
  - do 3 f_equal. induction objs as [|o objs IH]; [reflexivity|].
    cbn [map filter]. rewrite IH. clear IH.
    cbn [Scene.set_selected Scene.obj_id].
    destruct (Nat.eqb (Scene.obj_id o) armature_obj);
      cbn [Scene.set_selected Scene.obj_id Scene.obj_selected orb];
      destruct (Nat.eqb (Scene.obj_id o) mesh_obj);
      cbn [Scene.set_selected Scene.obj_id Scene.obj_selected orb map];
      reflexivity.
  - rewrite !map_map. apply map_ext. intros o.
    cbn [Scene.set_selected Scene.obj_id].
    destruct (Nat.eqb (Scene.obj_id o) armature_obj);
      cbn [Scene.set_selected Scene.obj_id];
      destruct (Nat.eqb (Scene.obj_id o) mesh_obj); reflexivity.
Qed.

(** X18: [parent_mesh_to_armature] makes the mesh, and nothing else, a
    child of the armature: an object whose reference is [mesh_obj] (and
    not [armature_obj]) gets the armature as parent and an Armature
    modifier; the armature is selected and active, every other object is
    deselected and otherwise unchanged. *)
Theorem parent_mesh_to_armature_effect
        (mesh_obj armature_obj : nat) (s : Scene.State) :
  Scene.objects (Scene.parent_mesh_to_armature mesh_obj armature_obj s)
  = map (fun o =>
           if Nat.eqb (Scene.obj_id o) mesh_obj
              && negb (Nat.eqb (Scene.obj_id o) armature_obj)
           then parented_to armature_obj (Scene.set_selected true o)
           else if Nat.eqb (Scene.obj_id o) mesh_obj
                   || Nat.eqb (Scene.obj_id o) armature_obj
                then Scene.set_selected true o
                else Scene.set_selected false o)
        (Scene.objects s)
  /\ Scene.active (Scene.parent_mesh_to_armature mesh_obj armature_obj s)
     = Some armature_obj.
Proof.
  destruct s as [objs act ex].
  unfold Scene.parent_mesh_to_armature, Scene.parent_set_armature_auto,
    Scene.set_active, Scene.select_set, Scene.update_object, Scene.select_all,
    Scene.with_objects, Scene.is_active, parented_to.
  cbn [Scene.objects Scene.active Scene.exports]. split; [|reflexivity].
  rewrite !map_map. apply map_ext. intros o.
  cbn [Scene.set_selected Scene.obj_id].
  destruct (Nat.eqb (Scene.obj_id o) mesh_obj) eqn:Em;
    cbn [Scene.set_selected Scene.obj_id Scene.obj_selected];
    destruct (Nat.eqb (Scene.obj_id o) armature_obj) eqn:Ea;
    cbn [Scene.set_selected Scene.obj_id Scene.obj_selected Scene.obj_name
         Scene.obj_kind Scene.obj_materials Scene.obj_modifiers
         Scene.obj_parent andb orb negb];
    rewrite ?Ea; reflexivity.
Qed.
End SceneExtras.

(** ** The output directory *)

Section PathExtras.
Local Open Scope char_scope.
Local Open Scope list_scope.

Lemma rstrip_sep_eq (s : path) : rstrip_sep s = rev (strip_seps (rev s)).
Proof. reflexivity. Qed.

Lemma dirname_eq (p : path) :
  dirname p
  = let head := rev (drop_to_sep (rev p)) in
    if negb (is_empty head) && negb (str_eqb head (repeat sep (length head)))
    then rstrip_sep head
    else head.
Proof. reflexivity. Qed.

Lemma str_eqb_refl (a : path) : str_eqb a a = true.
Proof.
  induction a as [|c a IH]; [reflexivity|].
  cbn [str_eqb]. now rewrite Ascii.eqb_refl, IH.
Qed.

Lemma str_eqb_eq (a b : path) : str_eqb a b = true -> a = b.
Proof.
  revert b. induction a as [|x a IH]; intros [|y b] Hab;
    try discriminate; [reflexivity|].
  cbn [str_eqb] in Hab. apply andb_prop in Hab as [Hxy Hab].
  apply Ascii.eqb_eq in Hxy. subst y. f_equal. now apply IH.
Qed.

(** A string holding a character other than [/] is not a run of [/]. *)
Lemma not_all_seps (s : path) (c : ascii) (n : nat) :
  In c s -> c <> sep -> str_eqb s (repeat sep n) = false.
Proof.
  intros Hin Hc. destruct (str_eqb s (repeat sep n)) eqn:E; [|reflexivity].
  apply str_eqb_eq in E. subst s. apply repeat_spec in Hin. contradiction.
Qed.

Lemma main_output_path_split (e : Env) :
  exists pre : path, main_output_path e = pre ++ OUTPUT_PATH.
Proof.
  unfold main_output_path.
  destruct (isdir e (str "apps/client/public")).
  - apply abspath_output_path.
  - cbv zeta.
    destruct (join_output_path (dirname (dirname (abspath e (script_file e)))))
      as [-> | (a' & ->)].
    + now exists [].
    + exists (a' ++ [sep]). now rewrite <- app_assoc.
Qed.

Lemma drop_to_sep_skip (c r : path) :
  (forall ch, In ch c -> ch <> sep) ->
  drop_to_sep (c ++ sep :: r) = sep :: r.
Proof.
  intros Hc. induction c as [|x c IH]; cbn [app drop_to_sep].
  - now rewrite Ascii.eqb_refl.
  - destruct (Ascii.eqb_spec x sep) as [E | _].
    + exfalso. apply (Hc x); [now left | exact E].
    + apply IH. intros ch Hch. apply Hc. now right.
Qed.

Lemma drop_to_sep_none (c : path) :
  (forall ch, In ch c -> ch <> sep) -> drop_to_sep c = [].
Proof.
  intros Hc. induction c as [|x c IH]; [reflexivity|]. cbn [drop_to_sep].
  destruct (Ascii.eqb_spec x sep) as [E | _].
  - exfalso. apply (Hc x); [now left | exact E].
  - apply IH. intros ch Hch. apply Hc. now right.
Qed.

(** [dirname] of [A/c], where [c] has no separator and [A] does not end
    with one, is [A]. *)
Lemma dirname_of_child (a : path) (x : ascii) (c : path) :
  x <> sep -> (forall ch, In ch c -> ch <> sep) ->
  dirname ((a ++ [x]) ++ sep :: c) = a ++ [x].
Proof.
  intros Hx Hc. rewrite dirname_eq. cbv zeta.
  assert (Ehead : rev (drop_to_sep (rev ((a ++ [x]) ++ sep :: c)))
                  = (a ++ [x]) ++ [sep]).
  { rewrite rev_app_distr. cbn [rev]. rewrite <- app_assoc. cbn [app].
    rewrite drop_to_sep_skip
      by (intros ch Hch; apply Hc; now apply in_rev).
    cbn [rev]. now rewrite rev_involutive. }
  rewrite Ehead.
  assert (Hne : is_empty ((a ++ [x]) ++ [sep]) = false)
    by (destruct a; reflexivity).
  rewrite Hne.
  rewrite (not_all_seps ((a ++ [x]) ++ [sep]) x) by
    (first [exact Hx | apply in_or_app; left; apply in_or_app; right; now left]).
  cbn [negb andb]. rewrite rstrip_sep_eq.
  rewrite !rev_app_distr. cbn [rev app strip_seps].
  rewrite Ascii.eqb_refl.
  destruct (Ascii.eqb_spec x sep) as [E | _]; [contradiction|].
  cbn [rev]. now rewrite rev_involutive.
Qed.

(** [dirname] of [/c] is [/]. *)
Lemma dirname_of_top (c : path) :
  (forall ch, In ch c -> ch <> sep) -> dirname (sep :: c) = [sep].
Proof.
  intros Hc. rewrite dirname_eq. cbv zeta.
  assert (Ehead : rev (drop_to_sep (rev (sep :: c))) = [sep]).
  { cbn [rev].
    rewrite drop_to_sep_skip
      by (intros ch Hch; apply Hc; now apply in_rev).
    reflexivity. }
  rewrite Ehead. reflexivity.
Qed.

(** X19: whichever branch [main] takes, the directory that [export_glb]
    creates with [os.makedirs] is the output path without its last
    component: it ends with [apps/client/public/models], and the output
    file is [bean_character.glb] inside it. *)
Theorem export_directory (e : Env) :
  exists pre : path,
    makedirs_target (main_output_path e)
    = pre ++ str "apps/client/public/models"
    /\ main_output_path e
       = makedirs_target (main_output_path e)
         ++ sep :: str "bean_character.glb".
Proof.
  destruct (main_output_path_split e) as (pre & ->). exists pre.
  assert (E : pre ++ OUTPUT_PATH
              = ((pre ++ str "apps/client/public/model") ++ ["s"])
                ++ sep :: str "bean_character.glb").
  { rewrite <- !app_assoc. reflexivity. }
  unfold makedirs_target. rewrite E.
  rewrite dirname_of_child.
  - split; [now rewrite <- app_assoc | reflexivity].
  - discriminate.
  - intros ch Hch. cbn in Hch.
    repeat (destruct Hch as [<- | Hch]; [discriminate|]). destruct Hch.
Qed.

(** *** Paths made of clean components *)

Lemma clean_comp_spec (c : path) :
  clean_comp c = true ->
  (forall ch, In ch c -> ch <> sep)
  /\ is_empty c = false
  /\ str_eqb c (str ".") = false
  /\ str_eqb c (str "..") = false.
Proof.
  unfold clean_comp. intros Hc.
  apply andb_prop in Hc as [Hc Hsep]. apply andb_prop in Hc as [Hc Hdd].
  apply andb_prop in Hc as [Hne Hd].
  apply negb_true_iff in Hne, Hd, Hdd. repeat split; try assumption.
  intros ch Hch E. rewrite forallb_forall in Hsep. specialize (Hsep ch Hch).
  subst ch. now rewrite Ascii.eqb_refl in Hsep.
Qed.

Lemma all_clean_app (l1 l2 : list path) :
  forallb clean_comp (l1 ++ l2) = true
  <-> forallb clean_comp l1 = true /\ forallb clean_comp l2 = true.
Proof. rewrite forallb_app. apply andb_true_iff. Qed.

Lemma split_sep_single (c : path) :
  (forall ch, In ch c -> ch <> sep) -> split_sep c = [c].
Proof.
  intros Hc. induction c as [|x c IH]; [reflexivity|]. cbn [split_sep].
  destruct (Ascii.eqb_spec x sep) as [E | _].
  - exfalso. apply (Hc x); [now left | exact E].
  - rewrite IH; [reflexivity|]. intros ch Hch. apply Hc. now right.
Qed.

(** Splitting the joined components gives the components back. *)
Lemma split_join (cl : list path) :
  cl <> [] -> forallb clean_comp cl = true ->
  split_sep (join_sep cl) = cl.
Proof.
  induction cl as [|c cl IH]; [contradiction|]. intros _ Hcl.
  cbn [forallb] in Hcl. apply andb_prop in Hcl as [Hc Hcl].
  apply clean_comp_spec in Hc as (Hsep & _).
  destruct cl as [|c2 cl].
  - now apply split_sep_single.
  - rewrite join_sep_cons by discriminate.
    rewrite split_sep_app, split_sep_single by assumption.
    rewrite IH by (assumption || discriminate). reflexivity.
Qed.

Lemma join_sep_app_eq (l1 l2 : list path) :
  l1 <> [] -> l2 <> [] ->
  join_sep (l1 ++ l2) = join_sep l1 ++ sep :: join_sep l2.
Proof.
  intros H1 H2. induction l1 as [|c l1 IH]; [contradiction|].
  destruct l1 as [|c2 l1].
  - cbn [app]. now rewrite join_sep_cons.
  - cbn [app] in *.
    change (join_sep (c :: c2 :: l1 ++ l2))
      with (c ++ sep :: join_sep (c2 :: l1 ++ l2)).
    change (join_sep (c :: c2 :: l1)) with (c ++ sep :: join_sep (c2 :: l1)).
    rewrite IH by discriminate. rewrite <- app_assoc. reflexivity.
Qed.

(** The joined components end with a character that is not [/]. *)
Lemma join_sep_last (cl : list path) :
  cl <> [] -> forallb clean_comp cl = true ->
  exists (a : path) (x : ascii), join_sep cl = a ++ [x] /\ x <> sep.
Proof.
  induction cl as [|c cl IH]; [contradiction|]. intros _ Hcl.
  cbn [forallb] in Hcl. apply andb_prop in Hcl as [Hc Hcl].
  apply clean_comp_spec in Hc as (Hsep & Hne & _).
  destruct cl as [|c2 cl].
  - destruct (exists_last (l := c)) as (a & x & ->);
      [intros ->; discriminate|].
    exists a, x. split; [reflexivity|].
    apply Hsep. apply in_or_app. right. now left.
  - destruct IH as (a & x & E & Hx); [discriminate | assumption|].
    exists (c ++ sep :: a), x. split; [|exact Hx].
    rewrite join_sep_cons by discriminate. rewrite E.
    now rewrite <- app_assoc.
Qed.

Lemma normpath_step_clean (k : nat) (st : list path) (c : path) :
  clean_comp c = true -> normpath_step k st c = st ++ [c].
Proof.
  intros Hc. apply clean_comp_spec in Hc as (_ & Hne & Hd & Hdd).
  unfold normpath_step.
  assert (He : str_eqb c (str "") = false) by (destruct c; easy).
  now rewrite He, Hd, Hdd.
Qed.

Lemma normpath_fold_clean (k : nat) (cl st : list path) :
  forallb clean_comp cl = true ->
  fold_left (normpath_step k) cl st = st ++ cl.
Proof.
  revert st. induction cl as [|c cl IH]; intros st Hcl; cbn [fold_left].
  - now rewrite app_nil_r.
  - cbn [forallb] in Hcl. apply andb_prop in Hcl as [Hc Hcl].
    rewrite normpath_step_clean by assumption.
    rewrite IH by assumption. now rewrite <- app_assoc.
Qed.

(** An absolute path made of clean components is already normal. *)
Lemma normpath_root_path (cl : list path) :
  forallb clean_comp cl = true -> normpath (root_path cl) = root_path cl.
Proof.
  intros Hcl. destruct cl as [|c cl]; [reflexivity|].
  unfold normpath, root_path. cbn [is_empty]. cbv zeta.
  assert (Hsplit : split_sep (sep :: join_sep (c :: cl)) = [] :: c :: cl).
  { cbn [split_sep]. rewrite Ascii.eqb_refl.
    now rewrite split_join by (assumption || discriminate). }
  rewrite Hsplit. clear Hsplit.
  assert (Hk : (if startswith (sep :: join_sep (c :: cl)) [sep]
                then if startswith (sep :: join_sep (c :: cl)) [sep; sep]
                        && negb (startswith (sep :: join_sep (c :: cl))
                                            [sep; sep; sep])
                     then 2 else 1
                else 0) = 1).
  { cbn [forallb] in Hcl. apply andb_prop in Hcl as [Hc _].
    apply clean_comp_spec in Hc as (Hsep & Hne & _).
    destruct c as [|x c]; [discriminate|].
    assert (Hx : Ascii.eqb x sep = false).
    { apply Ascii.eqb_neq. apply Hsep. now left. }
    match goal with
    | |- context [join_sep ?l] =>
        assert (Hj : exists t, join_sep l = x :: t)
    end.
    { destruct cl; [now exists c|]. rewrite join_sep_cons by discriminate.
      now eexists. }
    destruct Hj as (t & ->).
    cbn [startswith]. rewrite Ascii.eqb_refl, Hx. reflexivity. }
  rewrite Hk.
  change (fold_left (normpath_step 1) ([] :: c :: cl) [])
    with (fold_left (normpath_step 1) (c :: cl) []).
  rewrite normpath_fold_clean by assumption.
  cbn [repeat app]. reflexivity.
Qed.
Lemma endswith_not_sep (a : path) (x : ascii) :
  x <> sep -> endswith (a ++ [x]) [sep] = false.
Proof.
  intros Hx. unfold endswith. rewrite rev_app_distr. cbn [rev app startswith].
  apply Ascii.eqb_neq in Hx. now rewrite Hx.
Qed.

(** Joining [OUTPUT_PATH] to an absolute directory adds its components. *)
Lemma join_root_output (cs : list path) :
  forallb clean_comp cs = true ->
  join (root_path cs) OUTPUT_PATH = root_path (cs ++ output_comps).
Proof.
  intros Hcs. unfold join.
  change (startswith OUTPUT_PATH [sep]) with false. cbv iota.
  destruct cs as [|c cs]; [reflexivity|].
  destruct (join_sep_last (c :: cs)) as (a & x & E & Hx);
    [discriminate | assumption|].
  unfold root_path. rewrite join_sep_app_eq by discriminate.
  rewrite join_output_comps, E.
  change (sep :: a ++ [x]) with ((sep :: a) ++ [x]).
  rewrite endswith_not_sep by assumption.
  cbn [is_empty app orb]. rewrite <- app_assoc. reflexivity.
Qed.

(** The directory of a file or directory directly inside an absolute
    directory is that directory. *)
Lemma dirname_root_path (cs : list path) (f : path) :
  forallb clean_comp cs = true -> clean_comp f = true ->
  dirname (root_path (cs ++ [f])) = root_path cs.
Proof.
  intros Hcs Hf. apply clean_comp_spec in Hf as (Hf & _).
  destruct cs as [|c cs].
  - unfold root_path. cbn [app join_sep]. now apply dirname_of_top.
  - destruct (join_sep_last (c :: cs)) as (a & x & E & Hx);
      [discriminate | assumption|].
    unfold root_path. rewrite join_sep_app_eq by discriminate.
    change (join_sep [f]) with f. rewrite E.
    change (sep :: (a ++ [x]) ++ sep :: f)
      with (((sep :: a) ++ [x]) ++ sep :: f).
    now rewrite dirname_of_child.
Qed.

Lemma isabs_root_path (cs : list path) : isabs (root_path cs) = true.
Proof.
  unfold isabs, root_path. cbn [startswith]. rewrite Ascii.eqb_refl.
  now destruct (join_sep cs).
Qed.

Lemma output_comps_clean : forallb clean_comp output_comps = true.
Proof. vm_compute. reflexivity. Qed.

(** X20: when the project root is an absolute directory with plain
    component names, both branches of [main] give the output file below
    it: the first when the script is run from the root, the second when
    the script lies in a directory directly inside the root, whatever the
    working directory is. *)
Theorem output_below_project_root
        (e : Env) (root_comps : list path) (script_dir script_name : path) :
  forallb clean_comp root_comps = true ->
  clean_comp script_dir = true ->
  clean_comp script_name = true ->
  (if isdir e (str "apps/client/public")
   then getcwd e = root_path root_comps
   else script_file e
        = root_path (root_comps ++ [script_dir; script_name])) ->
  main_output_path e = root_path (root_comps ++ output_comps).
Proof.
  intros Hroot Hdir Hname Henv. unfold main_output_path.
  destruct (isdir e (str "apps/client/public")).
  - unfold abspath. change (isabs OUTPUT_PATH) with false. cbv iota.
    rewrite Henv, join_root_output by assumption.
    apply normpath_root_path. apply all_clean_app. split; [assumption|].
    apply output_comps_clean.
  - cbv zeta. unfold abspath. rewrite Henv.
    rewrite isabs_root_path.
    assert (Hd : forallb clean_comp (root_comps ++ [script_dir]) = true).
    { apply all_clean_app. split; [assumption|]. cbn [forallb].
      now rewrite Hdir. }
    change [script_dir; script_name] with ([script_dir] ++ [script_name]).
    rewrite app_assoc.
    rewrite normpath_root_path.
    + rewrite !dirname_root_path by assumption.
      now apply join_root_output.
    + apply all_clean_app. split; [assumption|]. cbn [forallb].
      now rewrite Hname.
Qed.

Lemma output_below_project_root_witness :
  let e := mkEnv (fun _ => false) (str "/tmp")
                 (str "/home/dev/ruckus/scripts/generate_bean.py") in
  main_output_path e
  = str "/home/dev/ruckus/apps/client/public/models/bean_character.glb".
Proof.
  intros e.
  apply (output_below_project_root e
           [str "home"; str "dev"; str "ruckus"]
           (str "scripts") (str "generate_bean.py"));
    reflexivity.
Defined.
End PathExtras.
